(** * node-ms-passport: the secure marshaling and operation-result layer

    A shallow embedding of [NodeMsPassport.hpp] and [msPassport.cpp]:
    the zeroizing allocator, the secure wide string and its conversion
    constructors, the [OperationResult] protocol of the biometric
    operations, the protector bridge, the hex codec, the asynchronous
    workers, argument checking and the exported callbacks, followed by
    the properties proved about them.

    Conventions.
    - [unsigned char], [char], [wchar_t], [int], [unsigned] and [size_t]
      values are integers in [Z]; every conversion between them that the
      source performs is written out as a wrap-around.
    - [std::string] is [string]; [secure_vector<unsigned char>] is a list
      of bytes; [secure_wstring] is a list of 16-bit code units (the
      source is MSVC-only: [wchar_t] has two bytes and [char] is signed).
    - A C++ function that can throw returns an [outcome]. *)

From Stdlib Require Import ZArith Lia List String Ascii Bool DecimalString.
From stdpp Require Import gmap list strings.

Local Open Scope Z_scope.

(** ** Exceptions *)

(** The exception objects the two files throw or let through.  All but
    [foreign_exception] derive from [std::exception]. *)
Inductive exn : Type :=
| std_exception (what : string)
| bad_alloc
| length_error (what : string)
| encryptionException (what : string)
| foreign_exception.

(** [e.what()] for the handlers [catch (const std::exception &e)];
    [None] for an object that such a handler does not catch. *)
Definition what (e : exn) : option string :=
  match e with
  | std_exception w => Some w
  | bad_alloc => Some "bad allocation"%string
  | length_error w => Some w
  | encryptionException w => Some w
  | foreign_exception => None
  end.

Inductive outcome (A : Type) : Type :=
| Returned (a : A)
| Thrown (e : exn).
Arguments Returned {A} a.
Arguments Thrown {A} e.

#[global] Instance outcome_ret : MRet outcome := @Returned.
#[global] Instance outcome_bind : MBind outcome := fun A B f m =>
  match m with
  | Returned a => f a
  | Thrown e => Thrown e
  end.

(** The value a computation returned, if it returned. *)
Definition returned {A} (m : outcome A) : option A :=
  match m with
  | Returned a => Some a
  | Thrown _ => None
  end.

(** ** Integer conversions *)

Definition SIZE_MAX : Z := 2 ^ 64 - 1.
Definition PTRDIFF_MAX : Z := 2 ^ 63 - 1.

(** [(size_t) i] *)
Definition to_size_t (i : Z) : Z := i mod 2 ^ 64.
(** [(unsigned) i] *)
Definition to_unsigned (i : Z) : Z := i mod 2 ^ 32.
(** [(unsigned char) i] *)
Definition to_uchar (i : Z) : Z := i mod 2 ^ 8.
(** [unsigned char] to [char]: the same bit pattern, read as signed. *)
Definition uchar_to_char (b : Z) : Z := if b <? 128 then b else b - 256.

(** The elements of a [std::string], as the [char] values they are. *)
Definition char_to_int (c : ascii) : Z := uchar_to_char (Z.of_N (N_of_ascii c)).
Definition int_to_char (i : Z) : ascii := ascii_of_N (Z.to_N (to_uchar i)).

Definition is_byte (b : Z) : Prop := 0 <= b < 256.

(** ** The C runtime: <ctype.h> *)

Module crt.

(** [isxdigit], [toupper] and [tolower] in the "C" locale.  The
    runtime answers 0 for an argument outside [-1 .. 255], and no
    character above 127 is a hexadecimal digit or a letter. *)
Definition isxdigit (c : Z) : bool :=
  ((48 <=? c) && (c <=? 57)) || ((65 <=? c) && (c <=? 70))
  || ((97 <=? c) && (c <=? 102)).

Definition toupper (c : Z) : Z :=
  if (97 <=? c) && (c <=? 122) then c - 32 else c.

Definition tolower (c : Z) : Z :=
  if (65 <=? c) && (c <=? 90) then c + 32 else c.

End crt.

(** ** The hex codec (msPassport.cpp) *)

(** [static unsigned int nibbles[]] *)
Definition nibbles : list Z :=
  [0; 1; 2; 3; 4; 5; 6; 7; 8; 9; 0; 0; 0; 0; 0; 0; 0; 10; 11; 12; 13; 14; 15].

(** [nibbles[toupper(c) - '0']]; the source reads the table only after
    [isxdigit(c)], where the index is within it. *)
Definition nibble (c : ascii) : Z :=
  nth (Z.to_nat (crt.toupper (char_to_int c) - 48)) nibbles 0.

(** [str.c_str()] as a C function reads it: up to the first NUL. *)
Fixpoint c_str (s : string) : string :=
  match s with
  | EmptyString => EmptyString
  | String c tl => if Ascii.eqb c "000" then EmptyString else String c (c_str tl)
  end.

(** [what()] of the exception of [string_to_binary].  The text [err] is
    built around the offending character, and the exception is
    constructed from [err.c_str()]: it copies the text up to the first
    NUL, so that a NUL as the offending character ends the message right
    after the opening quote. *)
Definition invalid_character (c : ascii) : string :=
  c_str ("Invalid character: '" +:+ String c "' is not a valid hex digit").

(** The loop of [string_to_binary]: [it] is what lies between the
    iterator and [source.end()], [retval] the bytes pushed so far.  The
    iterator advances by two; with one character left, [it + 1 <
    source.end()] is false and the loop ends after this round. *)
Fixpoint string_to_binary_loop (it : string) (retval : list Z) : outcome (list Z) :=
  match it with
  | EmptyString => Returned retval
  | String c tl =>
      if crt.isxdigit (char_to_int c) then
        let v := to_uchar (Z.shiftl (nibble c) 4) in
        match tl with
        | EmptyString => Returned (retval ++ [v])
        | String d tl' =>
            let v := if crt.isxdigit (char_to_int d)
                     then to_uchar (v + nibble d) else v in
            string_to_binary_loop tl' (retval ++ [v])
        end
      else Thrown (std_exception (invalid_character c))
  end.

Definition string_to_binary (source : string) : outcome (list Z) :=
  string_to_binary_loop source [].

(** [static char syms[] = "0123456789ABCDEF"] *)
Definition syms : string := "0123456789ABCDEF".

Definition sym (i : Z) : ascii :=
  match String.get (Z.to_nat i) syms with
  | Some c => c
  | None => "000"%char
  end.

(** The loop variable of [binary_to_string] has type [char]: each byte
    is first converted to [char], then to [unsigned] for the shift and
    the masks. *)
Fixpoint binary_to_string (source : list Z) : string :=
  match source with
  | [] => EmptyString
  | b :: rest =>
      let it := uchar_to_char b in
      String (sym (Z.land (Z.shiftr (to_unsigned it) 4) 15))
        (String (sym (Z.land (to_unsigned it) 15)) (binary_to_string rest))
  end.

(** A text with every letter replaced by its upper or lower case form. *)
Definition upper_char (c : ascii) : ascii := int_to_char (crt.toupper (char_to_int c)).
Definition lower_char (c : ascii) : ascii := int_to_char (crt.tolower (char_to_int c)).

Fixpoint map_chars (f : ascii -> ascii) (t : string) : string :=
  match t with
  | EmptyString => EmptyString
  | String c tl => String (f c) (map_chars f tl)
  end.

Definition uppercase (t : string) : string := map_chars upper_char t.
Definition lowercase (t : string) : string := map_chars lower_char t.

(** Every character of a text is a hexadecimal digit. *)
Fixpoint all_xdigit (t : string) : bool :=
  match t with
  | EmptyString => true
  | String c tl => crt.isxdigit (char_to_int c) && all_xdigit tl
  end.

(** ** The zeroizing allocator (NodeMsPassport.hpp, namespace util) *)

(** The free store at byte granularity.  [store] holds the bytes written
    so far, [live] the size of every block [::operator new] has handed
    out and [::operator delete] has not taken back, [brk] the next fresh
    address, [capacity] the number of bytes the store can still supply.
    [released] is the observation the zero-on-free property is about:
    for each block given back, what it held at that moment ([None] for a
    byte that was never written). *)
Record heap : Type := Heap {
  store : gmap Z Z;
  live : gmap Z Z;
  brk : Z;
  capacity : Z;
  released : list (Z * list (option Z))
}.

Definition empty_heap : heap :=
  {| store := ∅; live := ∅; brk := 4096; capacity := 2 ^ 20; released := [] |}.

Definition block_contents (p size : Z) (st : gmap Z Z) : list (option Z) :=
  (fun i => st !! (p + i)) <$> seqZ 0 size.

(** The block a successful [::operator new(size)] hands out, and the
    store after it. *)
Definition carve (size : Z) (h : heap) : Z * heap :=
  let p := brk h in
  (p, {| store := store h; live := <[p := size]> (live h);
         brk := p + Z.max size 1; capacity := capacity h - size;
         released := released h |}).

(** [::operator new(size)]: a fresh block, or [std::bad_alloc] when the
    store cannot supply [size] bytes. *)
Definition operator_new (size : Z) (h : heap) : outcome (Z * heap) :=
  if capacity h <? size then Thrown bad_alloc
  else Returned (carve size h).

(** Giving back a pointer that is not a live block does nothing here. *)
Definition operator_delete (p : Z) (h : heap) : heap :=
  match live h !! p with
  | Some size =>
      {| store := store h; live := delete p (live h); brk := brk h;
         capacity := capacity h + size;
         released := released h ++ [(p, block_contents p size (store h))] |}
  | None => h
  end.

(** [std::fill_n(first, count, value)] over bytes. *)
Fixpoint fill_n (first : Z) (count : nat) (value : Z) (st : gmap Z Z) : gmap Z Z :=
  match count with
  | O => st
  | S k => fill_n (first + 1) k value (<[first := value]> st)
  end.

Definition write_byte (a b : Z) (h : heap) : heap :=
  {| store := <[a := b]> (store h); live := live h; brk := brk h;
     capacity := capacity h; released := released h |}.

Module zallocator.
Section element_type.
(** [sizeof(T)] *)
Variable sizeof_T : Z.

Definition max_size : Z := SIZE_MAX / sizeof_T.

Definition allocate (n : Z) (h : heap) : outcome (Z * heap) :=
  if n >? SIZE_MAX / sizeof_T then Thrown bad_alloc
  else operator_new (to_size_t (n * sizeof_T)) h.

Definition deallocate (p n : Z) (h : heap) : heap :=
  let zeroed :=
    {| store := fill_n p (Z.to_nat (to_size_t (n * sizeof_T))) 0 (store h);
       live := live h; brk := brk h; capacity := capacity h;
       released := released h |} in
  operator_delete p zeroed.
End element_type.
End zallocator.

(** What the rest of the program may do to the free store between the
    allocation of a block and its release.  An allocation that throws
    leaves the store as it was. *)
Inductive heap_op : Type :=
| Poke (a b : Z)
| Alloc (size : Z)
| Free (q count : Z).

Definition run_op (h : heap) (o : heap_op) : heap :=
  match o with
  | Poke a b => write_byte a b h
  | Alloc size =>
      match operator_new size h with
      | Returned (_, h') => h'
      | Thrown _ => h
      end
  | Free q count => zallocator.deallocate 1 q count h
  end.

Definition touches (p : Z) (o : heap_op) : bool :=
  match o with
  | Free q _ => bool_decide (q = p)
  | _ => false
  end.

(** ** The C runtime: the checked copies and conversions *)

Definition EINVAL : Z := 22.
Definition ERANGE : Z := 34.
Definition EILSEQ : Z := 42.

Definition strerror (e : Z) : string :=
  if e =? EILSEQ then "Illegal byte sequence"
  else if e =? ERANGE then "Result too large"
  else if e =? EINVAL then "Invalid argument"
  else "Unknown error".

(** The line [perror(msg)] writes to the standard error stream; [errno]
    is the code the failing call has just set and returned. *)
Definition perror (msg : string) (errno : Z) : string :=
  msg +:+ ": " +:+ strerror errno.

(** [memcpy_s(dest, destSize, src, count)] on the bytes of [dest]: the
    error code and the bytes of [dest] afterwards.  A zero [count]
    succeeds before any other check; a [count] above [destSize] clears
    the destination and reports [ERANGE] (the runtime's invalid-parameter
    handler is taken to return, which is the case the callers' [if (!ok)]
    is written for).  Neither caller passes a null pointer with a
    non-zero [count]. *)
Definition memcpy_s (dest : list Z) (destSize : Z) (src : list Z) (count : Z)
  : Z * list Z :=
  if count =? 0 then (0, dest)
  else if destSize <? count then
    (ERANGE, replicate (Z.to_nat destSize) 0 ++ drop (Z.to_nat destSize) dest)
  else (0, take (Z.to_nat count) src ++ drop (Z.to_nat count) dest).

(** [memcpy(dest, src, n)] *)
Definition memcpy (dest src : list Z) (n : Z) : list Z :=
  take (Z.to_nat n) src ++ drop (length (take (Z.to_nat n) src)) dest.

(** [std::vector<unsigned char>::resize(n)], [n] already a [size_t]. *)
Definition vector_resize (v : list Z) (n : Z) : outcome (list Z) :=
  if n >? PTRDIFF_MAX then Thrown (length_error "vector too long")
  else Returned (take (Z.to_nat n) v ++ replicate (Z.to_nat n - length v) 0).

(** [std::basic_string<wchar_t>::resize(n)], used by the source only
    with an [n] that is at most the current size or zero. *)
Definition wstring_resize (w : list Z) (n : Z) : list Z :=
  take (Z.to_nat n) w ++ replicate (Z.to_nat n - length w) 0.

Definition sizeof_wchar_t : Z := 2.

(** The storage of a wide string, byte by byte (little endian). *)
Definition wchar_bytes (w : Z) : list Z := [w mod 256; (w / 256) mod 256].

Definition wstring_bytes (ws : list Z) : list Z := ws ≫= wchar_bytes.

Fixpoint bytes_wstring (bs : list Z) : list Z :=
  match bs with
  | lo :: hi :: rest => (lo + 256 * hi) :: bytes_wstring rest
  | _ => []
  end.

Section locale.
(** The multibyte decoder of the current locale: the wide characters
    of a C string, at most [count] of them, or [None] when it meets a
    sequence that is not valid. *)
Variable mbstowcs : string -> Z -> option (list Z).

(** [mbstowcs_s(&outSize, dest, sizeInWords, src, count)]: the error
    code, [outSize] and [dest] afterwards.  On either failure the
    runtime leaves 0 in [outSize] and makes [dest] the empty string. *)
Definition mbstowcs_s (dest : list Z) (sizeInWords : Z) (src : string) (count : Z)
  : Z * Z * list Z :=
  match mbstowcs src count with
  | None => (EILSEQ, 0, <[0%nat := 0]> dest)
  | Some ws =>
      let ws := take (Z.to_nat count) ws in
      if sizeInWords <=? Z.of_nat (length ws) then (ERANGE, 0, <[0%nat := 0]> dest)
      else (0, Z.of_nat (length ws) + 1, ws ++ 0 :: drop (S (length ws)) dest)
  end.
End locale.

(** ** secure_wstring (NodeMsPassport.hpp) *)

Module secure_wstring.

Section locale.
Variable mbstowcs : string -> Z -> option (list Z).

(** The call [mbstowcs_s(&outSize, this->data(), this->size(),
    str.c_str(), str.size())] on the [str.size() + 1] blanks the
    constructor starts from. *)
Definition of_string_conversion (str : string) : Z * Z * list Z :=
  let this := replicate (String.length str + 1) 32 in
  mbstowcs_s mbstowcs this (Z.of_nat (length this)) (c_str str)
    (Z.of_nat (String.length str)).

(** [secure_wstring(const std::string &str)], with the standard
    error stream threaded through: the string and the stream. *)
Definition of_string (str : string) (stderr : list string)
  : list Z * list string :=
  let '(err, outSize, this) := of_string_conversion str in
  let stderr :=
    if err =? 0 then stderr
    else stderr ++ [perror "Error creating wide string" err] in
  (wstring_resize this outSize, stderr).
End locale.

(** The call [memcpy_s(this->data(), this->size() * sizeof(wchar_t),
    data.data(), data.size())] on the
    [data.size() / sizeof(wchar_t)] blanks the constructor starts
    from. *)
Definition of_secure_vector_copy (data : list Z) : Z * list Z :=
  let this := replicate (Z.to_nat (Z.of_nat (length data) / sizeof_wchar_t)) 32 in
  memcpy_s (wstring_bytes this) (Z.of_nat (length this) * sizeof_wchar_t)
    data (Z.of_nat (length data)).

(** [secure_wstring(const secure_vector<unsigned char> &data)]; the
    standard error stream is threaded through as for [of_string]
    (this constructor has no statement that writes to it). *)
Definition of_secure_vector (data : list Z) (stderr : list string)
  : list Z * list string :=
  let '(err, raw) := of_secure_vector_copy data in
  let this := bytes_wstring raw in
  let ok := err =? 0 in
  (if negb ok then wstring_resize this 0 else this, stderr).

(** [getBytes() const] *)
Definition getBytes (this : list Z) : outcome (list Z) :=
  tmp ← vector_resize [] (Z.of_nat (length this) * sizeof_wchar_t);
  let '(err, tmp) :=
    memcpy_s tmp (Z.of_nat (length tmp)) (wstring_bytes this)
      (Z.of_nat (length this) * sizeof_wchar_t) in
  let ok := err =? 0 in
  if negb ok then vector_resize tmp 0 else mret tmp.

End secure_wstring.

(** ** Biometric operations (NodeMsPassport.hpp, namespace passport) *)

Module passport.

(** What a call into the unmanaged layer leaves behind: the two
    reference parameters and the buffer behind the returned pointer. *)
Record native_result : Type := {
  native_status : Z;
  native_size : Z;
  native_data : list Z
}.

Record OperationResult : Type := {
  data : list Z;
  status : Z
}.

Definition ok (r : OperationResult) : bool := status r =? 0.

(** The body the four operations share after the unmanaged call:
    [dt] stays empty unless [status == 0]; [dt.resize(size)] converts
    the [int] to [size_t]. *)
Definition copy_out (r : native_result) : outcome OperationResult :=
  dt ← (if native_status r =? 0 then
          dt ← vector_resize [] (to_size_t (native_size r));
          mret (memcpy dt (native_data r) (to_size_t (native_size r)))
        else mret []);
  mret {| data := dt; status := native_status r |}.

(** [(int) challenge.size()] *)
Definition to_int (i : Z) : Z := (i + 2 ^ 31) mod 2 ^ 32 - 2 ^ 31.

Section unmanaged.
(** The functions of namespace [unmanaged], which the header only
    declares. *)
Variables unmanaged_createPassportKey unmanaged_getPublicKey
  unmanaged_getPublicKeyHash : string -> outcome native_result.
Variable unmanaged_passportSign : string -> list Z -> Z -> outcome native_result.

Definition createPassportKey (accountId : string) : outcome OperationResult :=
  r ← unmanaged_createPassportKey (c_str accountId);
  copy_out r.

Definition passportSign (accountId : string) (challenge : list Z)
  : outcome OperationResult :=
  r ← unmanaged_passportSign (c_str accountId) challenge
        (to_int (Z.of_nat (length challenge)));
  copy_out r.

Definition getPublicKey (accountId : string) : outcome OperationResult :=
  r ← unmanaged_getPublicKey (c_str accountId);
  copy_out r.

Definition getPublicKeyHash (accountId : string) : outcome OperationResult :=
  r ← unmanaged_getPublicKeyHash (c_str accountId);
  copy_out r.
End unmanaged.

End passport.

(** ** The protector bridge (NodeMsPassport.hpp, namespace passwords) *)

Module passwords.

Section util.
(** [util::encrypt] and [util::decrypt]: the returned flag and the
    string [out] points to afterwards ([None] for a null pointer).
    [data] is passed by reference to const. *)
Variables util_encrypt util_decrypt : list Z -> bool * option (list Z).
(** [util::isEncrypted]: the returned flag and [ok]. *)
Variable util_isEncrypted : list Z -> bool * bool.

(** The returned flag and the caller's [data] afterwards; [None]
    when the function dereferences a null [out]. *)
Definition encrypt (data : list Z) : option (bool * list Z) :=
  let '(ok, out) := util_encrypt data in
  if negb ok then Some (false, data)
  else match out with
       | Some o => Some (true, o)
       | None => None
       end.

Definition decrypt (data : list Z) : option (bool * list Z) :=
  let '(ok, out) := util_decrypt data in
  if negb ok then Some (false, data)
  else match out with
       | Some o => Some (true, o)
       | None => None
       end.

Definition isEncrypted (data : list Z) : outcome bool :=
  let '(res, ok) := util_isEncrypted data in
  if negb ok then
    Thrown (encryptionException "Could not check if data is encrypted")
  else Returned res.
End util.

End passwords.

(** ** The caller-facing result object (msPassport.cpp) *)

(** The object with the properties "status", "ok" and "data"; [None] is
    the JavaScript null. *)
Record js_object : Type := {
  obj_status : Z;
  obj_ok : bool;
  obj_data : option string
}.

Definition convertToObject (res : passport.OperationResult) : js_object :=
  {| obj_status := passport.status res;
     obj_ok := passport.ok res;
     obj_data := if passport.status res =? 0
                 then Some (binary_to_string (passport.data res))
                 else None |}.

(** ** The asynchronous workers (msPassport.cpp, namespace workers) *)

(** A signal received by a [Napi::Promise::Deferred]. *)
Inductive settlement : Type :=
| Resolve (obj : js_object)
| Reject (message : string).

(** [Napi::AsyncWorker]: the stored error message and the three methods
    a worker overrides.  [Queue] runs [Execute] on a pool thread and
    then, on the caller's thread, [OnWorkComplete], which calls [OnOK]
    when the stored message is empty and [OnError] otherwise.  (The
    source never cancels a queued worker.) *)
Class AsyncWorker (W : Type) : Type := {
  _error : W -> string;
  Execute : W -> W;
  OnOK : W -> W;
  OnError : string -> W -> W
}.

Definition OnWorkComplete {W} `{AsyncWorker W} (w : W) : W :=
  if Nat.eqb (String.length (_error w)) 0 then OnOK w else OnError (_error w) w.

Definition Queue {W} `{AsyncWorker W} (w : W) : W :=
  OnWorkComplete (Execute w).

(** The [catch] clauses of both [Execute] methods: the message handed to
    [SetError].  [e.what()] is a pointer to characters, and the message
    is the text it points to, read up to the first NUL. *)
Definition caught_message (e : exn) : string :=
  match what e with
  | Some msg => c_str msg
  | None => "An unknown exception occurred"
  end.

Module workers.

Module createPassportKeyWorker.
(** [deferred] holds the signals the promise has received, oldest
    first; [error] is [AsyncWorker::_error]. *)
Record t : Type := {
  error : string;
  deferred : list settlement;
  account : string;
  status : Z;
  data : string
}.

Definition new (account : string) : t :=
  {| error := ""; deferred := []; account := account; status := 1; data := "" |}.

Definition SetError (msg : string) (w : t) : t :=
  {| error := msg; deferred := deferred w; account := account w;
     status := status w; data := data w |}.

Definition settle (s : settlement) (w : t) : t :=
  {| error := error w; deferred := deferred w ++ [s]; account := account w;
     status := status w; data := data w |}.

Section unmanaged.
Variable unmanaged_createPassportKey : string -> outcome passport.native_result.

Definition Execute (w : t) : t :=
  match passport.createPassportKey unmanaged_createPassportKey (account w) with
  | Returned res =>
      {| error := error w; deferred := deferred w; account := account w;
         status := passport.status res;
         data := if passport.ok res
                 then binary_to_string (passport.data res) else data w |}
  | Thrown e => SetError (caught_message e) w
  end.

Definition OnOK (w : t) : t :=
  settle (Resolve {| obj_status := status w;
                     obj_ok := status w =? 0;
                     obj_data := if status w =? 0 then Some (data w) else None |}) w.

Definition OnError (message : string) (w : t) : t :=
  settle (Reject message) w.

#[local] Instance worker : AsyncWorker t :=
  Build_AsyncWorker t error Execute OnOK OnError.
End unmanaged.
End createPassportKeyWorker.

Module passportSignWorker.
Record t : Type := {
  error : string;
  deferred : list settlement;
  account : string;
  challenge : string;
  status : Z;
  data : string
}.

Definition new (account challenge : string) : t :=
  {| error := ""; deferred := []; account := account; challenge := challenge;
     status := 1; data := "" |}.

Definition SetError (msg : string) (w : t) : t :=
  {| error := msg; deferred := deferred w; account := account w;
     challenge := challenge w; status := status w; data := data w |}.

Definition settle (s : settlement) (w : t) : t :=
  {| error := error w; deferred := deferred w ++ [s]; account := account w;
     challenge := challenge w; status := status w; data := data w |}.

Section unmanaged.
Variable unmanaged_passportSign :
  string -> list Z -> Z -> outcome passport.native_result.

(** The two calls of the [try] block that can throw. *)
Definition sign (account challenge : string) : outcome passport.OperationResult :=
  challenge_vec ← string_to_binary challenge;
  passport.passportSign unmanaged_passportSign account challenge_vec.

Definition Execute (w : t) : t :=
  match sign (account w) (challenge w) with
  | Returned res =>
      {| error := error w; deferred := deferred w; account := account w;
         challenge := challenge w;
         status := passport.status res;
         data := if passport.ok res
                 then binary_to_string (passport.data res) else data w |}
  | Thrown e => SetError (caught_message e) w
  end.

Definition OnOK (w : t) : t :=
  settle (Resolve {| obj_status := status w;
                     obj_ok := status w =? 0;
                     obj_data := if status w =? 0 then Some (data w) else None |}) w.

Definition OnError (message : string) (w : t) : t :=
  settle (Reject message) w.

#[local] Instance worker : AsyncWorker t :=
  Build_AsyncWorker t error Execute OnOK OnError.
End unmanaged.
End passportSignWorker.

End workers.

(** [createPassportKeyAsync] and [passportSignAsync]: a new worker is
    queued; the result is the worker once the work has completed. *)
Definition createPassportKeyAsync
    (unmanaged_createPassportKey : string -> outcome passport.native_result)
    (account : string) : workers.createPassportKeyWorker.t :=
  Queue (H := workers.createPassportKeyWorker.worker unmanaged_createPassportKey)
    (workers.createPassportKeyWorker.new account).

Definition passportSignAsync
    (unmanaged_passportSign : string -> list Z -> Z -> outcome passport.native_result)
    (account challenge : string) : workers.passportSignWorker.t :=
  Queue (H := workers.passportSignWorker.worker unmanaged_passportSign)
    (workers.passportSignWorker.new account challenge).

(** * Definitions used by the statements and proofs below *)

(** One round of the decoding loop on a full pair whose first character
    is a hexadecimal digit. *)
Definition pair_value (c d : ascii) : Z :=
  let v := to_uchar (Z.shiftl (nibble c) 4) in
  if crt.isxdigit (char_to_int d) then to_uchar (v + nibble d) else v.

(** The two symbols written for a byte, and what the loop reads back. *)
Definition hi_sym (b : Z) : ascii :=
  sym (Z.land (Z.shiftr (to_unsigned (uchar_to_char b)) 4) 15).
Definition lo_sym (b : Z) : ascii :=
  sym (Z.land (to_unsigned (uchar_to_char b)) 15).

Definition byte_round_trips (b : Z) : bool :=
  crt.isxdigit (char_to_int (hi_sym b))
  && crt.isxdigit (char_to_int (lo_sym b))
  && (pair_value (hi_sym b) (lo_sym b) =? b).

(** The symbols are digits and capital letters. *)
Definition sym_is_upper (j : Z) : bool :=
  if j <? 16
  then Ascii.eqb (int_to_char (crt.toupper (char_to_int (sym j)))) (sym j)
  else true.

(** Case does not matter to [isxdigit] nor to the table lookup. *)
Definition case_blind (f : ascii -> ascii) (c : ascii) : bool :=
  eqb (crt.isxdigit (char_to_int (f c))) (crt.isxdigit (char_to_int c))
  && (nibble (f c) =? nibble c).

(** The bytes the loop pushes for the full pairs of a text. *)
Fixpoint decode_pairs (t : string) : list Z :=
  match t with
  | String c (String d tl) => pair_value c d :: decode_pairs tl
  | _ => []
  end.

(** The value of a hexadecimal digit: its place among the sixteen
    digits, the letters in either case.  This is the reference the
    decoder's table lookup is compared with; it does not go through
    [nibbles], [toupper] or [isxdigit]. *)
Definition hexValue (c : ascii) : option Z :=
  match String.index 0 (String c EmptyString) "0123456789abcdef" with
  | Some place => Some (Z.of_nat place)
  | None =>
      match String.index 0 (String c EmptyString) "0123456789ABCDEF" with
      | Some place => Some (Z.of_nat place)
      | None => None
      end
  end.

(** The lookup agrees with [hexValue] wherever the decoder performs it,
    and [isxdigit] holds of the characters that have a value. *)
Definition nibble_is_hexValue (c : ascii) : bool :=
  match hexValue c with
  | Some v => crt.isxdigit (char_to_int c) && (nibble c =? v)
  | None => negb (crt.isxdigit (char_to_int c))
  end.

Definition high_nibble_fits (c : ascii) : bool :=
  (to_uchar (Z.shiftl (nibble c) 4) =? Z.shiftl (nibble c) 4)
  && (pair_value c "0" =? Z.shiftl (nibble c) 4).

(** A block the allocator handed out and has not taken back. *)
Definition owned (p size : Z) (h : heap) : Prop :=
  live h !! p = Some size /\ p < brk h.

(** Concrete inputs for the worked instances: heap traffic around the
    block at 4096, a locale in which no text decodes, unmanaged calls
    with fixed answers, a protector that fails and a query that cannot
    tell. *)
Definition sample_ops : list heap_op :=
  [Poke 4097 7; Alloc 8; Poke 4100 9; Free 4102 8].

Definition no_decoder : string -> Z -> option (list Z) := fun _ _ => None.

Definition ascii_decoder : string -> Z -> option (list Z) :=
  fun src count =>
    Some (take (Z.to_nat count)
            ((fun c => Z.of_N (N_of_ascii c)) <$> list_ascii_of_string src)).

Definition no_account : string -> outcome passport.native_result :=
  fun _ => Returned {| passport.native_status := 3; passport.native_size := 0;
                       passport.native_data := [] |}.

Definition no_signature : string -> list Z -> Z -> outcome passport.native_result :=
  fun _ _ _ => Returned {| passport.native_status := 2; passport.native_size := 0;
                           passport.native_data := [] |}.

Definition new_key : string -> outcome passport.native_result :=
  fun _ => Returned {| passport.native_status := 0; passport.native_size := 2;
                       passport.native_data := [1; 255] |}.

Definition empty_key : string -> outcome passport.native_result :=
  fun _ => Returned {| passport.native_status := 0; passport.native_size := 0;
                       passport.native_data := [] |}.

Definition protector_down : list Z -> bool * option (list Z) := fun _ => (false, None).

Definition query_failed : list Z -> bool * bool := fun _ => (true, false).

Definition engine_fault : string -> outcome passport.native_result :=
  fun _ => Thrown foreign_exception.

Definition signed : string -> list Z -> Z -> outcome passport.native_result :=
  fun _ _ _ => Returned {| passport.native_status := 0; passport.native_size := 1;
                           passport.native_data := [171] |}.

Definition status_only : js_object :=
  {| obj_status := 1; obj_ok := false; obj_data := None |}.

(** A completion that reports failure: a rejection, or a status object
    with a non-zero status and no data. *)
Definition failure (s : settlement) : Prop :=
  match s with
  | Reject _ => True
  | Resolve obj => obj_status obj <> 0 /\ obj_ok obj = false /\ obj_data obj = None
  end.

(** * The functions around the ones above *)

(** ** std::string operations *)

Fixpoint string_take (n : nat) (s : string) : string :=
  match n, s with
  | S k, String c tl => String c (string_take k tl)
  | _, _ => EmptyString
  end.

Fixpoint string_drop (n : nat) (s : string) : string :=
  match n, s with
  | S k, String _ tl => string_drop k tl
  | _, _ => s
  end.

(** [std::string::npos] *)
Definition npos : Z := SIZE_MAX.

(** [str.rfind(c)]: the scan keeps the last index at which [c] stood,
    [npos] when there is none. *)
Fixpoint rfind_from (s : string) (c : ascii) (i found : Z) : Z :=
  match s with
  | EmptyString => found
  | String d tl => rfind_from tl c (i + 1) (if Ascii.eqb d c then i else found)
  end.

Definition rfind (s : string) (c : ascii) : Z := rfind_from s c 0 npos.

(** [str.substr(pos)]; [std::out_of_range] is a [std::exception]. *)
Definition substr (s : string) (pos : Z) : outcome string :=
  if pos >? Z.of_nat (String.length s)
  then Thrown (std_exception "invalid string position")
  else Returned (string_drop (Z.to_nat pos) s).

(** [std::to_string] of a [size_t]. *)
Definition to_string (n : nat) : string := NilZero.string_of_uint (Nat.to_uint n).

(** [std::string::resize(n)], growing with NUL characters. *)
Definition string_resize (s : string) (n : Z) : string :=
  string_take (Z.to_nat n) s
  +:+ string_of_list_ascii (replicate (Z.to_nat n - String.length s) "000"%char).

(** ** secure_wstring::to_string (NodeMsPassport.hpp) *)

(** [this->c_str()] of a wide string as a C function reads it: up to
    the first NUL. *)
Fixpoint wcs_c_str (w : list Z) : list Z :=
  match w with
  | [] => []
  | c :: tl => if c =? 0 then [] else c :: wcs_c_str tl
  end.

Section encoder.
(** The multibyte encoder of the current locale: the bytes of a wide C
    string, at most [count] of them, or [None] when it meets a
    character the locale cannot express. *)
Variable wcstombs : list Z -> Z -> option string.

(** [wcstombs_s(&outSize, dest, sizeInBytes, src, count)]: the error
    code, [outSize] and [dest] afterwards, under the contract of
    [mbstowcs_s]. *)
Definition wcstombs_s (dest : string) (sizeInBytes : Z) (src : list Z) (count : Z)
  : Z * Z * string :=
  match wcstombs src count with
  | None => (EILSEQ, 0, String "000" (string_drop 1 dest))
  | Some bs =>
      let bs := string_take (Z.to_nat count) bs in
      if sizeInBytes <=? Z.of_nat (String.length bs)
      then (ERANGE, 0, String "000" (string_drop 1 dest))
      else (0, Z.of_nat (String.length bs) + 1,
            bs +:+ String "000" (string_drop (S (String.length bs)) dest))
  end.

(** [secure_wstring::to_string() const], with the standard error stream
    threaded through. *)
Definition wstring_to_string (this : list Z) (stderr : list string)
  : string * list string :=
  let out := string_of_list_ascii (replicate (length this + 1) " "%char) in
  let '(err, outSize, out) :=
    wcstombs_s out (Z.of_nat (String.length out)) (wcs_c_str this)
      (Z.of_nat (length this)) in
  let stderr :=
    if err =? 0 then stderr
    else stderr ++ [perror "Error creating string" err] in
  (string_resize out outSize, stderr).
End encoder.

(** ** Argument checking (msPassport.cpp, namespace util) *)

(** [enum type] *)
Inductive type : Type := STRING | NUMBER | FUNCTION | OBJECT | BOOLEAN.

(** A JavaScript value as the callbacks see one.  A string is its
    UTF-16 code units; a number is represented by the [int] that
    [Int32Value] reads from it, the one use the source makes of a
    number. *)
Inductive js_value : Type :=
| JsUndefined
| JsNull
| JsBoolean (b : bool)
| JsNumber (n : Z)
| JsString (units : list Z)
| JsSymbol
| JsFunction
| JsObject.

Definition IsString (v : js_value) : bool :=
  match v with JsString _ => true | _ => false end.
Definition IsNumber (v : js_value) : bool :=
  match v with JsNumber _ => true | _ => false end.
Definition IsFunction (v : js_value) : bool :=
  match v with JsFunction => true | _ => false end.
(** [Napi::Value::IsObject] holds of functions too. *)
Definition IsObject (v : js_value) : bool :=
  match v with JsObject | JsFunction => true | _ => false end.
Definition IsBoolean (v : js_value) : bool :=
  match v with JsBoolean _ => true | _ => false end.

(** [info[i]]: undefined past the last argument. *)
Definition info_at (info : list js_value) (i : nat) : js_value :=
  default JsUndefined (info !! i).

Inductive napi_error : Type :=
| Napi_TypeError (message : string)
| Napi_Error (message : string).

(** What a callback does: it returns a value, throws a JavaScript
    exception, or lets a C++ exception escape. *)
Inductive napi_result (A : Type) : Type :=
| Value (a : A)
| Throws (e : napi_error)
| Escapes (e : exn).
Arguments Value {A} a.
Arguments Throws {A} e.
Arguments Escapes {A} e.

Module util.

Definition removeNamespace (str : string) : outcome string :=
  substr str (to_size_t (rfind str ":" + 1)).

Definition mismatch (funcName kind : string) (i : nat) : napi_error :=
  Napi_TypeError ("Argument type mismatch: " +:+ funcName
                  +:+ " requires type " +:+ kind +:+ " at position "
                  +:+ to_string (i + 1)).

(** The loop of [checkArgs] from index [i] on, [types] being what is
    left of the vector. *)
Fixpoint checkArgs_loop (info : list js_value) (funcName : string)
    (types : list type) (i : nat) : napi_result unit :=
  match types with
  | [] => Value tt
  | t :: rest =>
      match t with
      | STRING =>
          if negb (IsString (info_at info i))
          then Throws (mismatch funcName "string" i)
          else checkArgs_loop info funcName rest (S i)
      | NUMBER =>
          if negb (IsNumber (info_at info i))
          then Throws (mismatch funcName "number" i)
          else checkArgs_loop info funcName rest (S i)
      | FUNCTION =>
          if negb (IsFunction (info_at info i))
          then Throws (mismatch funcName "function" i)
          else checkArgs_loop info funcName rest (S i)
      | OBJECT =>
          if negb (IsObject (info_at info i))
          then Throws (mismatch funcName "object" i)
          else checkArgs_loop info funcName rest (S i)
      | BOOLEAN =>
          if negb (IsBoolean (info_at info i))
          then Throws (mismatch funcName "boolean" i)
          else checkArgs_loop info funcName rest (S i)
      end
  end.

Definition checkArgs (info : list js_value) (funcName : string) (types : list type)
  : napi_result unit :=
  if (length info <? length types)%nat
  then Throws (Napi_TypeError (funcName +:+ " requires "
                               +:+ to_string (length types) +:+ " arguments"))
  else checkArgs_loop info funcName types 0.

End util.

(** [CHECK_ARGS(...)], [function] being [__FUNCTION__]. *)
Definition CHECK_ARGS (info : list js_value) (function : string) (types : list type)
  : napi_result unit :=
  match util.removeNamespace function with
  | Returned name => util.checkArgs info name types
  | Thrown e => Escapes e
  end.

(** [try { ... } CATCH_EXCEPTIONS] *)
Definition CATCH_EXCEPTIONS {A} (body : outcome A) : napi_result A :=
  match body with
  | Returned a => Value a
  | Thrown e => Throws (Napi_Error (caught_message e))
  end.

(** [info[i].As<Napi::String>()] as UTF-16 code units. *)
Definition As_String (v : js_value) : list Z :=
  match v with JsString units => units | _ => [] end.

(** [info[i].As<Napi::Number>()] as an [int]. *)
Definition As_Number (v : js_value) : Z :=
  match v with JsNumber n => n | _ => 0 end.

(** [info[i].As<Napi::Boolean>()] *)
Definition As_Boolean (v : js_value) : bool :=
  match v with JsBoolean b => b | _ => false end.

#[global] Instance napi_result_ret : MRet napi_result := @Value.
#[global] Instance napi_result_bind : MBind napi_result := fun A B f m =>
  match m with
  | Value a => f a
  | Throws e => Throws e
  | Escapes e => Escapes e
  end.

(** [buffer.reserve(n)], [n] already a [size_t]: the one effect the
    model keeps is the exception for a capacity above [max_size()]. *)
Definition vector_reserve (n : Z) : outcome unit :=
  if n >? PTRDIFF_MAX then Thrown (length_error "vector too long")
  else Returned tt.

(** ** The exported callbacks (msPassport.cpp) *)

(** Each callback takes [info] as the list of its arguments.  A
    [Napi::String] or [Napi::Object] built from a [std::string] is
    represented by that [std::string], as in [convertToObject]. *)
Module js.
Section engine.
(** [Napi::String] to [std::string]: the UTF-8 text of the code units. *)
Variable Utf8Value : list Z -> string.
Variable unmanaged_createPassportKey : string -> outcome passport.native_result.
Variable unmanaged_passportSign :
  string -> list Z -> Z -> outcome passport.native_result.
Variables util_encrypt util_decrypt : list Z -> bool * option (list Z).
Variable util_isEncrypted : list Z -> bool * bool.
(** [dist(rng)] at the [i]-th round of [generateRandom]'s loop. *)
Variable dist : nat -> Z.

Definition createPassportKey (info : list js_value) : napi_result js_object :=
  _ ← CHECK_ARGS info "createPassportKey" [STRING];
  CATCH_EXCEPTIONS
    (let account := Utf8Value (As_String (info_at info 0)) in
     res ← passport.createPassportKey unmanaged_createPassportKey account;
     mret (convertToObject res)).

(** The promise [createPassportKeyAsync] returns, as the signals it
    receives once the queued worker has run. *)
Definition createPassportKeyAsync (info : list js_value)
  : napi_result (list settlement) :=
  _ ← CHECK_ARGS info "createPassportKeyAsync" [STRING];
  let account := Utf8Value (As_String (info_at info 0)) in
  mret (workers.createPassportKeyWorker.deferred
          (createPassportKeyAsync unmanaged_createPassportKey account)).

Definition passportSign (info : list js_value) : napi_result js_object :=
  _ ← CHECK_ARGS info "passportSign" [STRING; STRING];
  CATCH_EXCEPTIONS
    (let account := Utf8Value (As_String (info_at info 0)) in
     challenge ← string_to_binary (Utf8Value (As_String (info_at info 1)));
     res ← passport.passportSign unmanaged_passportSign account challenge;
     mret (convertToObject res)).

Definition passportSignAsync (info : list js_value)
  : napi_result (list settlement) :=
  _ ← CHECK_ARGS info "passportSignAsync" [STRING; STRING];
  let account := Utf8Value (As_String (info_at info 0)) in
  let challenge := Utf8Value (As_String (info_at info 1)) in
  mret (workers.passportSignWorker.deferred
          (passportSignAsync unmanaged_passportSign account challenge)).

(** [encryptPassword]; [None] when [passwords::encrypt] dereferences a
    null pointer. *)
Definition encryptPassword (info : list js_value) : option (napi_result string) :=
  match CHECK_ARGS info "encryptPassword" [STRING] with
  | Value _ =>
      let data := As_String (info_at info 0) in
      match passwords.encrypt util_encrypt data with
      | None => None
      | Some (ok, data) =>
          Some (CATCH_EXCEPTIONS
                  (if negb ok then Thrown (std_exception "Could not encrypt the data")
                   else bytes ← secure_wstring.getBytes data;
                        mret (binary_to_string bytes)))
      end
  | Throws e => Some (Throws e)
  | Escapes e => Some (Escapes e)
  end.

(** [decryptPassword], the result being the UTF-16 code units of the
    string it returns. *)
Definition decryptPassword (info : list js_value) : option (napi_result (list Z)) :=
  match CHECK_ARGS info "decryptPassword" [STRING] with
  | Value _ =>
      let data_str := Utf8Value (As_String (info_at info 0)) in
      match string_to_binary data_str with
      | Thrown e => Some (CATCH_EXCEPTIONS (Thrown e))
      | Returned bytes =>
          let data := fst (secure_wstring.of_secure_vector bytes []) in
          match passwords.decrypt util_decrypt data with
          | None => None
          | Some (ok, data) =>
              Some (CATCH_EXCEPTIONS
                      (if negb ok
                       then Thrown (std_exception "Could not decrypt the data")
                       else mret data))
          end
      end
  | Throws e => Some (Throws e)
  | Escapes e => Some (Escapes e)
  end.

Definition passwordEncrypted (info : list js_value) : napi_result bool :=
  _ ← CHECK_ARGS info "passwordEncrypted" [STRING];
  CATCH_EXCEPTIONS
    (let password := Utf8Value (As_String (info_at info 0)) in
     data_vec ← string_to_binary password;
     let data := fst (secure_wstring.of_secure_vector data_vec []) in
     passwords.isEncrypted util_isEncrypted data).

(** The loop of [generateRandom]: [n] rounds are left, [i] is the loop
    counter. *)
Fixpoint generateRandom_loop (n i : nat) (buffer : list Z) : list Z :=
  match n with
  | O => buffer
  | S k => generateRandom_loop k (S i) (buffer ++ [to_uchar (dist i)])
  end.

Definition generateRandom (info : list js_value) : napi_result string :=
  _ ← CHECK_ARGS info "generateRandom" [NUMBER];
  CATCH_EXCEPTIONS
    (let numChars := As_Number (info_at info 0) in
     _ ← vector_reserve (to_size_t numChars);
     mret (binary_to_string (generateRandom_loop (Z.to_nat numChars) 0 []))).

End engine.
End js.

(** ** Definitions used by the statements and proofs of the functions around *)

(** The 256 characters. *)
Definition all_chars : list ascii :=
  map (fun b => ascii_of_N (Z.to_N b)) (seqZ 0 256).

(** Writing the byte of a pair of digits gives the digits back in
    upper case. *)
Definition pair_reencodes (c d : ascii) : bool :=
  if crt.isxdigit (char_to_int c) && crt.isxdigit (char_to_int d)
  then Ascii.eqb (hi_sym (pair_value c d)) (upper_char c)
       && Ascii.eqb (lo_sym (pair_value c d)) (upper_char d)
  else true.

(** The index of the last [c] in a text. *)
Fixpoint last_index (s : string) (c : ascii) : option nat :=
  match s with
  | EmptyString => None
  | String d tl =>
      match last_index tl c with
      | Some k => Some (S k)
      | None => if Ascii.eqb d c then Some O else None
      end
  end.

(** What [checkArgs] asks of the argument at a position of type [t]. *)
Definition accepts (t : type) (v : js_value) : bool :=
  match t with
  | STRING => IsString v
  | NUMBER => IsNumber v
  | FUNCTION => IsFunction v
  | OBJECT => IsObject v
  | BOOLEAN => IsBoolean v
  end.

Definition type_name (t : type) : string :=
  match t with
  | STRING => "string"
  | NUMBER => "number"
  | FUNCTION => "function"
  | OBJECT => "object"
  | BOOLEAN => "boolean"
  end.

Definition is_wchar (w : Z) : Prop := 0 <= w < 65536.

Definition sample_info : list js_value := [JsString [97]; JsNumber 7; JsNull].

(** A [Utf8Value] for texts of ASCII characters. *)
Definition ascii_utf8 : list Z -> string :=
  fun units => string_of_list_ascii (int_to_char <$> units).

(** A protector that reverses the string, and its inverse. *)
Definition reversing : list Z -> bool * option (list Z) :=
  fun data => (true, Some (rev data)).

(** A generator that counts up from 250. *)
Definition counting : nat -> Z := fun i => 250 + Z.of_nat i.

(** An encoder for texts of ASCII characters. *)
Definition ascii_encoder : list Z -> Z -> option string :=
  fun src count =>
    Some (string_take (Z.to_nat count) (string_of_list_ascii (int_to_char <$> src))).

(** The symbols are hexadecimal digits. *)
Definition sym_is_xdigit (j : Z) : bool :=
  if j <? 16 then crt.isxdigit (char_to_int (sym j)) else true.

(** * Properties *)

(** ** The hex codec *)

(** A property checked on each of the 256 bytes holds of every byte. *)
Lemma byte_cases (P : Z -> bool) :
  forallb P (seqZ 0 256) = true -> forall b, is_byte b -> P b = true.
Proof.
  intros Hall b Hb. rewrite forallb_forall in Hall.
  apply Hall, list_elem_of_In, elem_of_seqZ. unfold is_byte in Hb. lia.
Qed.

(** The same for the 256 characters. *)
Lemma char_cases (P : ascii -> bool) :
  forallb P (map (fun b => ascii_of_N (Z.to_N b)) (seqZ 0 256)) = true ->
  forall c, P c = true.
Proof.
  intros Hall c. rewrite forallb_forall in Hall. apply Hall.
  apply in_map_iff. exists (Z.of_N (N_of_ascii c)). split.
  - rewrite N2Z.id. apply ascii_N_embedding.
  - apply list_elem_of_In, elem_of_seqZ.
    pose proof (N_ascii_bounded c). lia.
Qed.

Lemma string_to_binary_loop_pair c d tl retval :
  crt.isxdigit (char_to_int c) = true ->
  string_to_binary_loop (String c (String d tl)) retval
  = string_to_binary_loop tl (retval ++ [pair_value c d]).
Proof. intros Hc. cbn [string_to_binary_loop]. rewrite Hc. reflexivity. Qed.

Lemma string_to_binary_loop_invalid c tl retval :
  crt.isxdigit (char_to_int c) = false ->
  string_to_binary_loop (String c tl) retval
  = Thrown (std_exception (invalid_character c)).
Proof. intros Hc. cbn [string_to_binary_loop]. rewrite Hc. reflexivity. Qed.

Lemma string_to_binary_loop_lone c retval :
  crt.isxdigit (char_to_int c) = true ->
  string_to_binary_loop (String c EmptyString) retval
  = Returned (retval ++ [to_uchar (Z.shiftl (nibble c) 4)]).
Proof. intros Hc. cbn [string_to_binary_loop]. rewrite Hc. reflexivity. Qed.

Lemma byte_round_trip b :
  is_byte b ->
  crt.isxdigit (char_to_int (hi_sym b)) = true
  /\ pair_value (hi_sym b) (lo_sym b) = b.
Proof.
  intros Hb.
  assert (H : byte_round_trips b = true).
  { revert b Hb. apply byte_cases. vm_compute. reflexivity. }
  unfold byte_round_trips in H.
  apply andb_prop in H as [H Hv]. apply andb_prop in H as [Hh _].
  split; [exact Hh | now apply Z.eqb_eq].
Qed.

Lemma string_to_binary_loop_encoded bs :
  Forall is_byte bs ->
  forall retval,
    string_to_binary_loop (binary_to_string bs) retval = Returned (retval ++ bs).
Proof.
  induction 1 as [|b bs Hb _ IH]; intros retval; cbn [binary_to_string].
  - now rewrite app_nil_r.
  - destruct (byte_round_trip b Hb) as [Hh Hv].
    fold (hi_sym b) (lo_sym b).
    rewrite string_to_binary_loop_pair by exact Hh.
    rewrite Hv, IH, <- app_assoc. reflexivity.
Qed.

Lemma sym_upper j :
  0 <= j < 16 ->
  int_to_char (crt.toupper (char_to_int (sym j))) = sym j.
Proof.
  intros Hj.
  assert (H : sym_is_upper j = true).
  { apply byte_cases; [vm_compute; reflexivity | unfold is_byte; lia]. }
  unfold sym_is_upper in H. destruct (Z.ltb_spec j 16); [|lia]. now apply Ascii.eqb_eq.
Qed.

Lemma land_15_range i : 0 <= Z.land i 15 < 16.
Proof.
  change 15 with (Z.ones 4). rewrite Z.land_ones by lia.
  apply Z.mod_pos_bound. lia.
Qed.

Lemma uppercase_binary_to_string bs :
  uppercase (binary_to_string bs) = binary_to_string bs.
Proof.
  unfold uppercase.
  induction bs as [|b bs IH]; cbn [binary_to_string map_chars]; [reflexivity|].
  rewrite IH. unfold upper_char. now rewrite !sym_upper by apply land_15_range.
Qed.

Lemma length_binary_to_string bs :
  String.length (binary_to_string bs) = (2 * length bs)%nat.
Proof. induction bs as [|b bs IH]; cbn; [reflexivity | rewrite IH; lia]. Qed.

(** Induction on a text two characters at a time, as the loop reads it. *)
Lemma string_pair_ind (P : string -> Prop) :
  P EmptyString ->
  (forall c, P (String c EmptyString)) ->
  (forall c d tl, P tl -> P (String c (String d tl))) ->
  forall t, P t.
Proof.
  intros H0 H1 H2.
  assert (H : forall t, P t /\ forall c, P (String c t)).
  { induction t as [|d t [IHt IHc]]; split; auto. }
  intros t. apply H.
Qed.

Lemma case_blind_spec f c :
  case_blind f c = true ->
  crt.isxdigit (char_to_int (f c)) = crt.isxdigit (char_to_int c)
  /\ nibble (f c) = nibble c.
Proof.
  unfold case_blind. intros [H1 H2]%andb_prop.
  split; [now apply eqb_prop | now apply Z.eqb_eq].
Qed.

Lemma upper_char_blind c : case_blind upper_char c = true.
Proof. revert c. apply char_cases. vm_compute. reflexivity. Qed.

Lemma lower_char_blind c : case_blind lower_char c = true.
Proof. revert c. apply char_cases. vm_compute. reflexivity. Qed.

Lemma string_to_binary_loop_case_blind (f : ascii -> ascii) :
  (forall c, case_blind f c = true) ->
  forall t retval,
    returned (string_to_binary_loop (map_chars f t) retval)
    = returned (string_to_binary_loop t retval).
Proof.
  intros Hf t. induction t as [|c|c d tl IH] using string_pair_ind; intros retval.
  - reflexivity.
  - destruct (case_blind_spec f c (Hf c)) as [Hx Hn].
    cbn [map_chars string_to_binary_loop]. rewrite Hx, Hn.
    now destruct (crt.isxdigit (char_to_int c)).
  - destruct (case_blind_spec f c (Hf c)) as [Hx Hn].
    destruct (case_blind_spec f d (Hf d)) as [Hx' Hn'].
    cbn [map_chars string_to_binary_loop]. rewrite Hx, Hn, Hx', Hn'.
    destruct (crt.isxdigit (char_to_int c)); [apply IH | reflexivity].
Qed.

Lemma string_to_binary_uppercase t :
  returned (string_to_binary (uppercase t)) = returned (string_to_binary t).
Proof.
  unfold string_to_binary, uppercase.
  apply string_to_binary_loop_case_blind, upper_char_blind.
Qed.

Lemma string_to_binary_lowercase t :
  returned (string_to_binary (lowercase t)) = returned (string_to_binary t).
Proof.
  unfold string_to_binary, lowercase.
  apply string_to_binary_loop_case_blind, lower_char_blind.
Qed.

(** C3: for every byte sequence [b], decoding the encoding of [b] gives
    [b] back; the encoding is in canonical upper case (upper-casing it
    changes nothing); and decoding does not depend on the case of the
    text: the lower-case form of the encoding decodes to [b] too, and
    any text decodes to the same bytes in its upper-case and its
    lower-case form. *)
Theorem hex_round_trip (b : list Z) (Hb : Forall is_byte b) :
  string_to_binary (binary_to_string b) = Returned b
  /\ uppercase (binary_to_string b) = binary_to_string b
  /\ string_to_binary (lowercase (binary_to_string b)) = Returned b
  /\ forall t : string,
       returned (string_to_binary (lowercase t))
       = returned (string_to_binary (uppercase t)).
Proof.
  assert (Hrt : string_to_binary (binary_to_string b) = Returned b).
  { unfold string_to_binary. now rewrite string_to_binary_loop_encoded. }
  split; [exact Hrt|]. split; [apply uppercase_binary_to_string|]. split.
  - pose proof (string_to_binary_lowercase (binary_to_string b)) as H.
    rewrite Hrt in H.
    destruct (string_to_binary (lowercase (binary_to_string b))); cbn in H; congruence.
  - intros t. now rewrite string_to_binary_lowercase, string_to_binary_uppercase.
Qed.

Lemma hex_round_trip_witness :
  Forall is_byte [0; 171; 255] /\ string_to_binary (binary_to_string [0; 171; 255]) = Returned [0; 171; 255].
Proof.
  assert (H : Forall is_byte [0; 171; 255]) by (repeat constructor; unfold is_byte; lia).
  split; [exact H | apply (hex_round_trip [0; 171; 255] H)].
Defined.

Lemma string_length_app (s t : string) :
  String.length (s +:+ t) = (String.length s + String.length t)%nat.
Proof.
  induction s as [|c s IH]; [reflexivity|].
  change (String c s +:+ t) with (String c (s +:+ t)).
  cbn [String.length]. now rewrite IH.
Qed.

Lemma string_app_assoc (s t u : string) : (s +:+ t) +:+ u = s +:+ (t +:+ u).
Proof.
  induction s as [|c s IH]; [reflexivity|].
  change ((String c s +:+ t) +:+ u) with (String c ((s +:+ t) +:+ u)).
  now rewrite IH.
Qed.

Lemma all_xdigit_app s t : all_xdigit (s +:+ t) = all_xdigit s && all_xdigit t.
Proof.
  induction s as [|c s IH]; [reflexivity|].
  change (String c s +:+ t) with (String c (s +:+ t)).
  cbn [all_xdigit]. now rewrite IH, andb_assoc.
Qed.

Lemma length_decode_pairs t :
  Nat.even (String.length t) = true ->
  (2 * length (decode_pairs t))%nat = String.length t.
Proof.
  induction t as [|c|c d tl IH] using string_pair_ind; cbn [String.length decode_pairs length].
  - reflexivity.
  - discriminate.
  - intros He. change (Nat.even (String.length tl) = true) in He.
    specialize (IH He). lia.
Qed.

Lemma string_to_binary_loop_even_prefix t :
  Nat.even (String.length t) = true ->
  all_xdigit t = true ->
  forall rest retval,
    string_to_binary_loop (t +:+ rest) retval
    = string_to_binary_loop rest (retval ++ decode_pairs t).
Proof.
  induction t as [|c|c d tl IH] using string_pair_ind; intros He Hx rest retval.
  - cbn. now rewrite app_nil_r.
  - discriminate.
  - cbn [all_xdigit] in Hx. apply andb_prop in Hx as [Hc [Hd Htl]%andb_prop].
    change (String c (String d tl) +:+ rest) with (String c (String d (tl +:+ rest))).
    rewrite string_to_binary_loop_pair by exact Hc.
    rewrite IH by assumption. cbn [decode_pairs]. now rewrite <- app_assoc.
Qed.

Lemma odd_text_split text :
  Nat.odd (String.length text) = true ->
  exists t c, text = t +:+ String c EmptyString /\ Nat.even (String.length t) = true.
Proof.
  induction text as [|c|c d tl IH] using string_pair_ind; intros Ho.
  - discriminate.
  - exists EmptyString, c. split; reflexivity.
  - destruct IH as (t & e & -> & He); [exact Ho|].
    exists (String c (String d t)), e. split; [reflexivity | exact He].
Qed.

Lemma high_nibble_spec c :
  to_uchar (Z.shiftl (nibble c) 4) = Z.shiftl (nibble c) 4
  /\ pair_value c "0" = Z.shiftl (nibble c) 4.
Proof.
  assert (H : high_nibble_fits c = true).
  { revert c. apply char_cases. vm_compute. reflexivity. }
  apply andb_prop in H as [H1 H2]. split; now apply Z.eqb_eq.
Qed.

Lemma nibble_hexValue c :
  crt.isxdigit (char_to_int c) = true -> hexValue c = Some (nibble c).
Proof.
  intros Hc.
  assert (H : forall a, nibble_is_hexValue a = true).
  { apply char_cases. vm_compute. reflexivity. }
  specialize (H c). unfold nibble_is_hexValue in H. destruct (hexValue c) as [v|].
  - apply andb_prop in H as [_ H%Z.eqb_eq]. now rewrite H.
  - rewrite Hc in H. discriminate.
Qed.

(** C5: for every odd-length text of hexadecimal digits the decoder
    returns (length + 1) / 2 bytes, the last of which is the value of the
    final character (0 to 9 for a decimal digit, 10 to 15 for the
    letters a to f in either case) shifted left by four, that is 16
    times that value: the lone character is the high nibble and the low
    nibble is zero, so the text decodes exactly like the same text with
    a ["0"] appended. *)
Theorem odd_length_trailing_nibble (text : string)
    (Hodd : Nat.odd (String.length text) = true)
    (Hhex : all_xdigit text = true) :
  exists (bs : list Z) (lastChar : ascii) (v : Z),
    last (list_ascii_of_string text) = Some lastChar
    /\ hexValue lastChar = Some v
    /\ nibble lastChar = v
    /\ string_to_binary text = Returned bs
    /\ length bs = Nat.div (String.length text + 1) 2
    /\ last bs = Some (Z.shiftl v 4)
    /\ last bs = Some (16 * v)
    /\ string_to_binary (text +:+ "0") = Returned bs.
Proof.
  destruct (odd_text_split text Hodd) as (t & c & -> & He).
  rewrite all_xdigit_app in Hhex. apply andb_prop in Hhex as [Ht Hc].
  cbn [all_xdigit] in Hc. rewrite andb_true_r in Hc.
  destruct (high_nibble_spec c) as [Hfit Hpad].
  exists (decode_pairs t ++ [Z.shiftl (nibble c) 4]), c, (nibble c).
  repeat split.
  - clear. induction t as [|d t IH]; [reflexivity|].
    change (String d t +:+ String c EmptyString)
      with (String d (t +:+ String c EmptyString)).
    cbn [list_ascii_of_string]. rewrite last_cons, IH. reflexivity.
  - now apply nibble_hexValue.
  - unfold string_to_binary.
    rewrite string_to_binary_loop_even_prefix by assumption.
    rewrite string_to_binary_loop_lone by exact Hc. now rewrite Hfit.
  - rewrite length_app, string_length_app. cbn [length String.length].
    pose proof (length_decode_pairs t He) as Hl.
    rewrite <- Hl.
    replace (2 * length (decode_pairs t) + 1 + 1)%nat
      with ((length (decode_pairs t) + 1) * 2)%nat by lia.
    now rewrite Nat.div_mul by lia.
  - apply last_snoc.
  - rewrite last_snoc, Z.shiftl_mul_pow2 by lia. f_equal. lia.
  - unfold string_to_binary.
    rewrite string_app_assoc.
    rewrite string_to_binary_loop_even_prefix by assumption.
    change (String c EmptyString +:+ "0") with (String c (String "0" EmptyString)).
    rewrite string_to_binary_loop_pair by exact Hc. now rewrite Hpad.
Qed.

Lemma odd_length_trailing_nibble_witness :
  Nat.odd (String.length "ABC") = true /\ all_xdigit "ABC" = true
  /\ exists (bs : list Z) (lastChar : ascii) (v : Z),
       last (list_ascii_of_string "ABC") = Some lastChar
       /\ hexValue lastChar = Some v
       /\ nibble lastChar = v
       /\ string_to_binary "ABC" = Returned bs
       /\ length bs = Nat.div (String.length "ABC" + 1) 2
       /\ last bs = Some (Z.shiftl v 4)
       /\ last bs = Some (16 * v)
       /\ string_to_binary ("ABC" +:+ "0") = Returned bs.
Proof.
  split; [reflexivity|]. split; [reflexivity|].
  apply (odd_length_trailing_nibble "ABC"); reflexivity.
Defined.

(** The instance in numbers: ["ABC"] gives the bytes 0xAB and 0xC0. *)
Example decode_ABC_values :
  string_to_binary "ABC" = Returned [171; 192]
  /\ hexValue "C" = Some 12 /\ 16 * 12 = 192.
Proof. repeat split. Qed.

(** The reference value on the twenty-two digits, and off them. *)
Example hexValue_table :
  map hexValue (list_ascii_of_string "0123456789abcdefABCDEF")
  = map Some [0; 1; 2; 3; 4; 5; 6; 7; 8; 9; 10; 11; 12; 13; 14; 15;
              10; 11; 12; 13; 14; 15]
  /\ map hexValue (list_ascii_of_string "gG/:@` ") = replicate 7 None.
Proof. split; reflexivity. Qed.

Lemma c_str_idem s : c_str (c_str s) = c_str s.
Proof.
  induction s as [|c tl IH]; [reflexivity|]. cbn [c_str].
  destruct (Ascii.eqb c "000") eqn:Hc; [reflexivity|].
  cbn [c_str]. now rewrite Hc, IH.
Qed.

(** A handler that catches the decoder's exception reads its message
    unchanged. *)
Lemma caught_invalid_character c :
  caught_message (std_exception (invalid_character c)) = invalid_character c.
Proof. apply c_str_idem. Qed.

(** The message is the text up to the first NUL: whole for every
    offending character but NUL itself. *)
Lemma invalid_character_text (c : ascii) :
  invalid_character c
  = if Ascii.eqb c "000" then "Invalid character: '"%string
    else ("Invalid character: '" +:+ String c "' is not a valid hex digit")%string.
Proof.
  unfold invalid_character. simpl.
  destruct (Ascii.eqb c "000"); reflexivity.
Qed.

(** C4, as the code has it: when the first character that is not a
    hexadecimal digit stands at an even index (every character before it
    is a digit and there is an even number of them), the decoder throws
    a [std::exception] whose message quotes that character; the message
    holds no position.  The exception is built from [err.c_str()], so
    its message is the text up to the first NUL: the whole text unless
    the offending character is NUL, and the text cut after the opening
    quote when it is. *)
Theorem string_to_binary_rejects_high_nibble (pre post : string) (c : ascii)
    (Heven : Nat.even (String.length pre) = true)
    (Hpre : all_xdigit pre = true)
    (Hc : crt.isxdigit (char_to_int c) = false) :
  string_to_binary (pre +:+ String c post)
  = Thrown (std_exception
              (c_str ("Invalid character: '" +:+ String c
                                                "' is not a valid hex digit")))
  /\ (c <> "000"%char ->
      string_to_binary (pre +:+ String c post)
      = Thrown (std_exception
                  ("Invalid character: '" +:+ String c
                                             "' is not a valid hex digit")))
  /\ (c = "000"%char ->
      string_to_binary (pre +:+ String c post)
      = Thrown (std_exception "Invalid character: '")).
Proof.
  assert (Hthrow : string_to_binary (pre +:+ String c post)
                   = Thrown (std_exception (invalid_character c))).
  { unfold string_to_binary.
    rewrite string_to_binary_loop_even_prefix by assumption.
    now rewrite string_to_binary_loop_invalid. }
  split; [exact Hthrow|].
  rewrite Hthrow, invalid_character_text.
  split; intros Hnul.
  - destruct (Ascii.eqb_spec c "000"); [contradiction|reflexivity].
  - now rewrite Hnul.
Qed.

Lemma string_to_binary_rejects_high_nibble_witness :
  Nat.even (String.length "1f") = true
  /\ all_xdigit "1f" = true
  /\ crt.isxdigit (char_to_int "G") = false
  /\ string_to_binary ("1f" +:+ String "G" "00")
     = Thrown (std_exception "Invalid character: 'G' is not a valid hex digit").
Proof.
  repeat (split; [reflexivity|]).
  refine (proj1 (proj2 (string_to_binary_rejects_high_nibble "1f" "00" "G" _ _ _)) _);
    [reflexivity | reflexivity | reflexivity | discriminate].
Defined.

(** The same at the NUL character: the message ends at the quote. *)
Example string_to_binary_nul_message :
  string_to_binary ("1f" +:+ String "000" "00")
  = Thrown (std_exception "Invalid character: '").
Proof. reflexivity. Qed.

(** C4 as stated fails on two counts.  The text ["0G"] holds a
    character that is not a hexadecimal digit and yet decodes to one
    byte; and no position can be read off the exception: ["G"] and
    ["00G"] raise the same exception, with the offending character at
    index 0 in one and 2 in the other. *)
Lemma string_to_binary_non_hex_counterexample :
  string_to_binary "0G" = Returned [0]
  /\ ~ exists position : exn -> nat,
         forall text e,
           string_to_binary text = Thrown e ->
           exists c, String.get (position e) text = Some c
                     /\ crt.isxdigit (char_to_int c) = false.
Proof.
  split; [reflexivity|]. intros [position H].
  destruct (H "G"%string _ eq_refl) as (c & Hget & Hc).
  destruct (H "00G"%string _ eq_refl) as (c' & Hget' & Hc').
  cbn in Hget, Hget'.
  destruct (position (std_exception (invalid_character "G"))) as [|[|[|n]]];
    try discriminate.
  injection Hget' as <-. discriminate.
Qed.

(** X1: a character that is not a hexadecimal digit is not rejected in
    the low-nibble position of a pair: after an even-length prefix of
    digits and a digit [c], the text decodes as if a ["0"] stood in the
    place of such a character [d]. *)
Theorem string_to_binary_skips_low_nibble (pre post : string) (c d : ascii)
    (Heven : Nat.even (String.length pre) = true)
    (Hpre : all_xdigit pre = true)
    (Hc : crt.isxdigit (char_to_int c) = true)
    (Hd : crt.isxdigit (char_to_int d) = false) :
  string_to_binary (pre +:+ String c (String d post))
  = string_to_binary (pre +:+ String c (String "0" post)).
Proof.
  unfold string_to_binary.
  rewrite !string_to_binary_loop_even_prefix by assumption.
  rewrite !string_to_binary_loop_pair by exact Hc.
  unfold pair_value at 1. rewrite Hd.
  now rewrite (proj2 (high_nibble_spec c)), (proj1 (high_nibble_spec c)).
Qed.

Lemma string_to_binary_skips_low_nibble_witness :
  Nat.even (String.length "ff") = true
  /\ all_xdigit "ff" = true
  /\ crt.isxdigit (char_to_int "1") = true
  /\ crt.isxdigit (char_to_int "G") = false
  /\ string_to_binary "ff1G22" = string_to_binary "ff1022".
Proof.
  repeat (split; [reflexivity|]).
  apply (string_to_binary_skips_low_nibble "ff" "22" "1" "G"); reflexivity.
Defined.

(** ** The zeroizing allocator *)

Lemma fill_n_lookup_outside count : forall first value st a,
  a < first \/ first + Z.of_nat count <= a ->
  fill_n first count value st !! a = st !! a.
Proof.
  induction count as [|k IH]; intros first value st a Ha; cbn [fill_n]; [reflexivity|].
  rewrite IH by lia. apply lookup_insert_ne. lia.
Qed.

Lemma fill_n_lookup_inside count : forall first value st a,
  first <= a < first + Z.of_nat count ->
  fill_n first count value st !! a = Some value.
Proof.
  induction count as [|k IH]; intros first value st a Ha; cbn [fill_n]; [lia|].
  destruct (decide (a = first)) as [->|Hne].
  - rewrite fill_n_lookup_outside by lia. apply lookup_insert_eq.
  - apply IH. lia.
Qed.

Lemma block_contents_filled p size value st :
  block_contents p size (fill_n p (Z.to_nat size) value st)
  = replicate (Z.to_nat size) (Some value).
Proof.
  symmetry. apply replicate_as_elem_of. unfold block_contents. split.
  - now rewrite length_fmap, length_seqZ.
  - intros y (i & -> & Hi%elem_of_seqZ)%list_elem_of_fmap.
    apply fill_n_lookup_inside. lia.
Qed.

Lemma carve_owned size h :
  owned (fst (carve size h)) size (snd (carve size h)).
Proof.
  unfold owned, carve; cbn. split; [apply lookup_insert_eq | lia].
Qed.

Lemma operator_new_returned size h p h' :
  operator_new size h = Returned (p, h') ->
  size <= capacity h /\ (p, h') = carve size h.
Proof.
  unfold operator_new. destruct (Z.ltb_spec (capacity h) size); [discriminate|].
  intros Heq. split; [lia|congruence].
Qed.

Lemma operator_new_owned size h p h' :
  operator_new size h = Returned (p, h') -> owned p size h'.
Proof.
  intros [_ H]%operator_new_returned.
  pose proof (carve_owned size h) as Hown. now rewrite <- H in Hown.
Qed.

Lemma operator_delete_other p q h :
  q <> p ->
  live (operator_delete q h) !! p = live h !! p
  /\ brk (operator_delete q h) = brk h.
Proof.
  intros Hne. unfold operator_delete.
  destruct (live h !! q); cbn; [|easy].
  split; [now apply lookup_delete_ne | reflexivity].
Qed.

Lemma run_op_owned p size h o :
  touches p o = false -> owned p size h -> owned p size (run_op h o).
Proof.
  intros Ht [Hlive Hbrk]. unfold owned.
  destruct o as [a b|sz|q count]; cbn [run_op].
  - easy.
  - unfold operator_new. destruct (capacity h <? sz); [easy|].
    unfold carve; cbn. split; [|lia].
    rewrite lookup_insert_ne by lia. exact Hlive.
  - cbn [touches] in Ht. apply bool_decide_eq_false in Ht.
    unfold zallocator.deallocate.
    destruct (operator_delete_other p q
      {| store := fill_n q (Z.to_nat (to_size_t (count * 1))) 0 (store h);
         live := live h; brk := brk h; capacity := capacity h;
         released := released h |} Ht) as [-> ->].
    easy.
Qed.

Lemma run_ops_owned p size ops : forall h,
  existsb (touches p) ops = false ->
  owned p size h -> owned p size (foldl run_op h ops).
Proof.
  induction ops as [|o ops IH]; intros h Hops Hown; [exact Hown|].
  cbn [existsb] in Hops. apply orb_false_elim in Hops as [Ho Hops].
  cbn [foldl]. apply IH; [exact Hops|]. now apply run_op_owned.
Qed.

Lemma allocate_owned sizeof_T n h p h' :
  0 < sizeof_T -> 0 <= n ->
  zallocator.allocate sizeof_T n h = Returned (p, h') ->
  n <= zallocator.max_size sizeof_T
  /\ to_size_t (n * sizeof_T) = n * sizeof_T
  /\ owned p (n * sizeof_T) h'.
Proof.
  intros HT Hn. unfold zallocator.allocate, zallocator.max_size.
  destruct (Z.gtb_spec n (SIZE_MAX / sizeof_T)) as [|Hle]; [discriminate|].
  assert (Hfit : to_size_t (n * sizeof_T) = n * sizeof_T).
  { unfold to_size_t. apply Z.mod_small.
    pose proof (Z.mul_div_le SIZE_MAX sizeof_T HT).
    assert (n * sizeof_T <= sizeof_T * (SIZE_MAX / sizeof_T)) by nia.
    unfold SIZE_MAX in *. lia. }
  rewrite Hfit. intros Hnew.
  split; [exact Hle|]. split; [reflexivity|].
  exact (operator_new_owned _ _ _ _ Hnew).
Qed.

Lemma deallocate_owned sizeof_T p n h :
  to_size_t (n * sizeof_T) = n * sizeof_T ->
  owned p (n * sizeof_T) h ->
  let h' := zallocator.deallocate sizeof_T p n h in
  released h' = released h ++ [(p, replicate (Z.to_nat (n * sizeof_T)) (Some 0))]
  /\ live h' !! p = None
  /\ forall i, 0 <= i < n * sizeof_T -> store h' !! (p + i) = Some 0.
Proof.
  intros Hfit [Hlive _]. unfold zallocator.deallocate, operator_delete.
  cbn [live store released]. rewrite Hlive, Hfit. cbn. split; [|split].
  - now rewrite block_contents_filled.
  - apply lookup_delete_eq.
  - intros i Hi. apply fill_n_lookup_inside. lia.
Qed.

(** C1: for every element size, a block obtained from [allocate(n)]
    and released with [deallocate(p, n)], whatever was written to the
    store or allocated and released besides in between, goes back to
    [::operator delete] with all of its [n * sizeof(T)] bytes zero: the
    block logged at its release holds only zeros, the pointer is no
    longer live, and the bytes are zero in the store. *)
Theorem deallocate_zeroes_storage (sizeof_T n p : Z) (h0 h1 : heap)
    (ops : list heap_op)
    (HT : 0 < sizeof_T) (Hn : 0 <= n)
    (Halloc : zallocator.allocate sizeof_T n h0 = Returned (p, h1))
    (Hops : existsb (touches p) ops = false) :
  let h2 := foldl run_op h1 ops in
  let h3 := zallocator.deallocate sizeof_T p n h2 in
  released h3
  = released h2 ++ [(p, replicate (Z.to_nat (n * sizeof_T)) (Some 0))]
  /\ live h3 !! p = None
  /\ forall i, 0 <= i < n * sizeof_T -> store h3 !! (p + i) = Some 0.
Proof.
  destruct (allocate_owned sizeof_T n h0 p h1 HT Hn Halloc) as (_ & Hfit & Hown).
  apply deallocate_owned; [exact Hfit|].
  now apply run_ops_owned.
Qed.

Lemma deallocate_zeroes_storage_witness :
  let h1 := snd (carve 6 empty_heap) in
  let h2 := foldl run_op h1 sample_ops in
  let h3 := zallocator.deallocate 2 4096 3 h2 in
  0 < 2 /\ 0 <= 3
  /\ zallocator.allocate 2 3 empty_heap = Returned (4096, h1)
  /\ existsb (touches 4096) sample_ops = false
  /\ released h3
     = released h2 ++ [(4096, replicate (Z.to_nat (3 * 2)) (Some 0))]
  /\ live h3 !! 4096 = None
  /\ forall i, 0 <= i < 3 * 2 -> store h3 !! (4096 + i) = Some 0.
Proof.
  intros h1 h2 h3.
  assert (Ha : zallocator.allocate 2 3 empty_heap = Returned (4096, h1)) by reflexivity.
  assert (Ho : existsb (touches 4096) sample_ops = false) by reflexivity.
  split; [lia|]. split; [lia|]. split; [exact Ha|]. split; [exact Ho|].
  apply (deallocate_zeroes_storage 2 3 4096 empty_heap h1 sample_ops); [lia | lia | exact Ha | exact Ho].
Defined.

(** ** The conversion constructors of secure_wstring *)

Lemma length_wstring_bytes ws : length (wstring_bytes ws) = (2 * length ws)%nat.
Proof.
  unfold wstring_bytes. induction ws as [|w ws IH]; [reflexivity|].
  cbn. cbn in IH. rewrite IH. lia.
Qed.

(** Induction on a byte vector two bytes at a time. *)
Lemma list_pair_ind {A} (P : list A -> Prop) :
  P [] -> (forall a, P [a]) -> (forall a b l, P l -> P (a :: b :: l)) ->
  forall l, P l.
Proof.
  intros H0 H1 H2.
  assert (H : forall l, P l /\ forall a, P (a :: l)).
  { induction l as [|b l [IHl IHa]]; split; auto. }
  intros l. apply H.
Qed.

Lemma wstring_bytes_bytes_wstring data :
  Forall is_byte data ->
  Nat.even (length data) = true ->
  wstring_bytes (bytes_wstring data) = data.
Proof.
  induction data as [|a|lo hi rest IH] using list_pair_ind; intros Hb He.
  - reflexivity.
  - discriminate.
  - apply Forall_cons in Hb as [Hlo Hb]. apply Forall_cons in Hb as [Hhi Hb].
    cbn [bytes_wstring]. unfold wstring_bytes in *. cbn [mbind list_bind].
    rewrite IH by assumption. unfold wchar_bytes, is_byte in *. cbn [app].
    f_equal; [|f_equal].
    + rewrite (Z.mul_comm 256 hi), Z_mod_plus_full. apply Z.mod_small. lia.
    + rewrite (Z.mul_comm 256 hi), Z.div_add by lia.
      rewrite (Z.div_small lo) by lia. apply Z.mod_small. lia.
Qed.

Lemma length_bytes_wstring data :
  Nat.even (length data) = true ->
  (2 * length (bytes_wstring data))%nat = length data.
Proof.
  induction data as [|a|lo hi rest IH] using list_pair_ind; intros He.
  - reflexivity.
  - discriminate.
  - cbn [bytes_wstring length]. specialize (IH He). lia.
Qed.

Lemma even_length_half {A} (l : list A) :
  Nat.even (length l) = true ->
  Z.of_nat (length l) / sizeof_wchar_t * sizeof_wchar_t = Z.of_nat (length l).
Proof.
  intros [m Hm]%Nat.even_spec. rewrite Hm. unfold sizeof_wchar_t.
  replace (Z.of_nat (2 * m)) with (Z.of_nat m * 2) by lia.
  now rewrite Z.div_mul by lia.
Qed.

Lemma odd_length_half {A} (l : list A) :
  Nat.even (length l) = false ->
  Z.of_nat (length l) / sizeof_wchar_t * sizeof_wchar_t = Z.of_nat (length l) - 1.
Proof.
  intros Ho. assert (Hodd : Nat.odd (length l) = true)
    by (rewrite <- Nat.negb_even, Ho; reflexivity).
  apply Nat.odd_spec in Hodd as [m Hm]. rewrite Hm. unfold sizeof_wchar_t.
  replace (Z.of_nat (2 * m + 1)) with (1 + Z.of_nat m * 2) by lia.
  rewrite Z.div_add by lia. change (1 / 2) with 0. lia.
Qed.

Lemma of_secure_vector_copy_even data :
  Nat.even (length data) = true ->
  secure_wstring.of_secure_vector_copy data = (0, data).
Proof.
  intros He. unfold secure_wstring.of_secure_vector_copy, memcpy_s.
  pose proof (even_length_half data He) as Hhalf.
  rewrite length_replicate, Z2Nat.id
    by (apply Z.div_pos; unfold sizeof_wchar_t; lia).
  rewrite Hhalf.
  destruct (Z.eqb_spec (Z.of_nat (length data)) 0) as [H0|Hne].
  - destruct data; [reflexivity | discriminate].
  - rewrite Z.ltb_irrefl, Nat2Z.id, firstn_all.
    rewrite drop_ge; [now rewrite app_nil_r|].
    rewrite length_wstring_bytes, length_replicate.
    unfold sizeof_wchar_t in *. lia.
Qed.

Lemma of_secure_vector_copy_odd data :
  Nat.even (length data) = false ->
  fst (secure_wstring.of_secure_vector_copy data) = ERANGE.
Proof.
  intros Ho. unfold secure_wstring.of_secure_vector_copy, memcpy_s.
  pose proof (odd_length_half data Ho) as Hhalf.
  rewrite length_replicate, Z2Nat.id
    by (apply Z.div_pos; unfold sizeof_wchar_t; lia).
  rewrite Hhalf.
  destruct (Z.eqb_spec (Z.of_nat (length data)) 0) as [H0|Hne].
  - destruct data; discriminate.
  - destruct (Z.ltb_spec (Z.of_nat (length data) - 1) (Z.of_nat (length data)));
      [reflexivity | lia].
Qed.

Lemma of_secure_vector_spec data stderr :
  secure_wstring.of_secure_vector data stderr
  = (if Nat.even (length data) then bytes_wstring data else [], stderr).
Proof.
  unfold secure_wstring.of_secure_vector.
  destruct (Nat.even (length data)) eqn:He.
  - now rewrite of_secure_vector_copy_even.
  - pose proof (of_secure_vector_copy_odd data He) as Herr.
    destruct (secure_wstring.of_secure_vector_copy data) as [err raw].
    cbn in Herr. subst err. reflexivity.
Qed.

Lemma getBytes_spec w :
  Z.of_nat (length w) * sizeof_wchar_t <= PTRDIFF_MAX ->
  secure_wstring.getBytes w = Returned (wstring_bytes w).
Proof.
  intros Hfit. unfold secure_wstring.getBytes, vector_resize.
  destruct (Z.gtb_spec (Z.of_nat (length w) * sizeof_wchar_t) PTRDIFF_MAX); [lia|].
  cbn [mbind outcome_bind]. rewrite take_nil. cbn [app length].
  rewrite Nat.sub_0_r, length_replicate. unfold memcpy_s.
  rewrite Z2Nat.id by (unfold sizeof_wchar_t; lia).
  destruct (Z.eqb_spec (Z.of_nat (length w) * sizeof_wchar_t) 0) as [H0|Hne].
  - destruct w; [reflexivity | unfold sizeof_wchar_t in H0; cbn in H0; lia].
  - rewrite Z.ltb_irrefl. cbn.
    assert (Hlen : Z.to_nat (Z.of_nat (length w) * sizeof_wchar_t)
                   = length (wstring_bytes w))
      by (rewrite length_wstring_bytes; unfold sizeof_wchar_t; lia).
    rewrite Hlen, firstn_all, drop_ge by (rewrite length_replicate; lia).
    now rewrite app_nil_r.
Qed.

Lemma wstring_resize_zero w : wstring_resize w 0 = [].
Proof. unfold wstring_resize. now rewrite take_0. Qed.

Lemma of_string_conversion_spec mbstowcs str :
  secure_wstring.of_string_conversion mbstowcs str
  = match mbstowcs (c_str str) (Z.of_nat (String.length str)) with
    | None => (EILSEQ, 0, <[0%nat := 0]> (replicate (String.length str + 1) 32))
    | Some ws =>
        let ws := take (String.length str) ws in
        (0, Z.of_nat (length ws) + 1,
         ws ++ 0 :: drop (S (length ws)) (replicate (String.length str + 1) 32))
    end.
Proof.
  unfold secure_wstring.of_string_conversion, mbstowcs_s.
  destruct (mbstowcs (c_str str) (Z.of_nat (String.length str))) as [ws|]; [|reflexivity].
  rewrite Nat2Z.id, length_replicate.
  destruct (Z.leb_spec (Z.of_nat (String.length str + 1))
              (Z.of_nat (length (take (String.length str) ws)))) as [Hle|_];
    [|reflexivity].
  rewrite length_take in Hle. lia.
Qed.

Lemma of_string_spec mbstowcs str stderr :
  secure_wstring.of_string mbstowcs str stderr
  = match mbstowcs (c_str str) (Z.of_nat (String.length str)) with
    | None => ([], stderr ++ [perror "Error creating wide string" EILSEQ])
    | Some ws => (take (String.length str) ws ++ [0], stderr)
    end.
Proof.
  unfold secure_wstring.of_string. rewrite of_string_conversion_spec.
  destruct (mbstowcs (c_str str) (Z.of_nat (String.length str))) as [ws|].
  - cbv zeta. cbn [Z.eqb]. f_equal. unfold wstring_resize.
    set (ws' := take (String.length str) ws).
    replace (Z.to_nat (Z.of_nat (length ws') + 1)) with (length ws' + 1)%nat by lia.
    rewrite take_app_add' by reflexivity. cbn [take].
    rewrite take_0, length_app. cbn [length].
    match goal with |- context [replicate ?n 0] => replace n with 0%nat by lia end.
    cbn [replicate]. now rewrite app_nil_r.
  - cbn [Z.eqb EILSEQ]. now rewrite wstring_resize_zero.
Qed.

(** X2: when the narrow text decodes, the string the constructor builds is
    the decoded characters followed by the terminating NUL, which
    [outSize] counts: it is one character longer than the text it
    holds. *)
Theorem of_string_keeps_terminator
    (mbstowcs : string -> Z -> option (list Z))
    (str : string) (stderr : list string) (ws : list Z)
    (Hws : mbstowcs (c_str str) (Z.of_nat (String.length str)) = Some ws) :
  secure_wstring.of_string mbstowcs str stderr
  = (take (String.length str) ws ++ [0], stderr).
Proof.
  rewrite of_string_spec, Hws.
  reflexivity.
Qed.

Lemma of_string_keeps_terminator_witness :
  ascii_decoder "abc" 3 = Some [97; 98; 99]
  /\ secure_wstring.of_string ascii_decoder "abc" [] = ([97; 98; 99; 0], []).
Proof.
  split; [reflexivity|].
  exact (of_string_keeps_terminator ascii_decoder "abc" [] [97; 98; 99] eq_refl).
Defined.

(** C6, as the code has it: each conversion constructor ends with the
    whole input converted or with the empty string, according to the
    error code of its conversion call, and neither has a path that
    throws.  On failure the constructor from narrow text writes one
    line to the standard error stream ([perror]); the constructor from
    a byte vector writes nothing. *)
Theorem conversion_failure_leaves_empty
    (mbstowcs : string -> Z -> option (list Z))
    (str : string) (data : list Z) (stderr : list string) :
  (forall err outSize buf,
     secure_wstring.of_string_conversion mbstowcs str = (err, outSize, buf) ->
     if err =? 0
     then exists ws,
            mbstowcs (c_str str) (Z.of_nat (String.length str)) = Some ws
            /\ secure_wstring.of_string mbstowcs str stderr
               = (take (String.length str) ws ++ [0], stderr)
     else secure_wstring.of_string mbstowcs str stderr
          = ([], stderr ++ [perror "Error creating wide string" err]))
  /\ (forall err raw,
        secure_wstring.of_secure_vector_copy data = (err, raw) ->
        if err =? 0
        then raw = data
             /\ secure_wstring.of_secure_vector data stderr = (bytes_wstring data, stderr)
        else secure_wstring.of_secure_vector data stderr = ([], stderr)).
Proof.
  split.
  - intros err outSize buf. rewrite of_string_conversion_spec, of_string_spec.
    destruct (mbstowcs (c_str str) (Z.of_nat (String.length str))) as [ws|].
    + intros [= <- _ _]. cbn [Z.eqb]. now exists ws.
    + intros [= <- _ _]. reflexivity.
  - intros err raw Hcopy. rewrite of_secure_vector_spec.
    destruct (Nat.even (length data)) eqn:He.
    + rewrite of_secure_vector_copy_even in Hcopy by exact He.
      injection Hcopy as <- <-. cbn [Z.eqb]. split; reflexivity.
    + pose proof (of_secure_vector_copy_odd data He) as Herr.
      rewrite Hcopy in Herr. cbn in Herr. subst err. reflexivity.
Qed.

Lemma conversion_failure_leaves_empty_witness :
  secure_wstring.of_string no_decoder "abc" []
  = ([], ["Error creating wide string: Illegal byte sequence"%string])
  /\ secure_wstring.of_secure_vector [65; 0; 66] [] = ([], []).
Proof.
  destruct (conversion_failure_leaves_empty no_decoder "abc" [65; 0; 66] [])
    as [Hs Hb].
  split.
  - exact (Hs EILSEQ 0 (<[0%nat := 0]> (replicate 4 32)) eq_refl).
  - exact (Hb ERANGE [0; 0] eq_refl).
Defined.

(** C6 as stated fails for the constructor from a byte vector: on the
    three bytes 65, 0, 66 the copy is refused ([ERANGE]) and the result
    is empty, and the standard error stream is as empty as before: no
    diagnostic comes with the empty result. *)
Lemma byte_vector_failure_is_silent :
  fst (secure_wstring.of_secure_vector_copy [65; 0; 66]) = ERANGE
  /\ secure_wstring.of_secure_vector [65; 0; 66] [] = ([], []).
Proof. split; reflexivity. Qed.

(** C10, as the code has it: the constructor never writes a
    diagnostic.  For a vector of an even number of bytes it yields
    [data.size() / sizeof(wchar_t)] characters and [getBytes] gives the
    vector back.  For an odd number of bytes [memcpy_s] refuses the copy
    and the string is empty, so that [getBytes] returns the empty
    vector: every byte is lost, not the last one only. *)
Theorem of_secure_vector_length (data : list Z) (stderr : list string)
    (Hbytes : Forall is_byte data)
    (Hsize : Z.of_nat (length data) <= PTRDIFF_MAX) :
  let w := fst (secure_wstring.of_secure_vector data stderr) in
  snd (secure_wstring.of_secure_vector data stderr) = stderr
  /\ if Nat.even (length data)
     then Z.of_nat (length w) = Z.of_nat (length data) / sizeof_wchar_t
          /\ secure_wstring.getBytes w = Returned data
     else w = []
          /\ secure_wstring.getBytes w = Returned []
          /\ data <> [].
Proof.
  cbv zeta. rewrite of_secure_vector_spec. cbn [fst snd]. split; [reflexivity|].
  destruct (Nat.even (length data)) eqn:He.
  - pose proof (length_bytes_wstring data He) as Hlen.
    split.
    + unfold sizeof_wchar_t. rewrite <- Hlen.
      replace (Z.of_nat (2 * length (bytes_wstring data)))
        with (Z.of_nat (length (bytes_wstring data)) * 2) by lia.
      now rewrite Z.div_mul by lia.
    + rewrite getBytes_spec by (unfold sizeof_wchar_t; lia).
      now rewrite wstring_bytes_bytes_wstring.
  - split; [reflexivity|]. split; [reflexivity|].
    intros ->. discriminate.
Qed.

Lemma of_secure_vector_length_witness :
  Forall is_byte [65; 0; 66; 1]
  /\ Z.of_nat (length [65; 0; 66; 1]) <= PTRDIFF_MAX
  /\ secure_wstring.getBytes (fst (secure_wstring.of_secure_vector [65; 0; 66; 1] []))
     = Returned [65; 0; 66; 1].
Proof.
  assert (Hb : Forall is_byte [65; 0; 66; 1])
    by (repeat constructor; unfold is_byte; lia).
  assert (Hs : Z.of_nat (length [65; 0; 66; 1]) <= PTRDIFF_MAX)
    by (unfold PTRDIFF_MAX; cbn; lia).
  split; [exact Hb|]. split; [exact Hs|].
  exact (proj2 (proj2 (of_secure_vector_length [65; 0; 66; 1] [] Hb Hs))).
Defined.

(** C10 as stated fails: three bytes should give [3 / 2 = 1] character,
    and the constructor gives none. *)
Lemma odd_byte_vector_counterexample :
  Z.of_nat (length [65; 0; 66]) / sizeof_wchar_t = 1
  /\ secure_wstring.of_secure_vector [65; 0; 66] [] = ([], []).
Proof. split; reflexivity. Qed.

(** ** The operation-result protocol *)

Lemma vector_resize_empty n v :
  vector_resize [] n = Returned v ->
  n <= PTRDIFF_MAX /\ v = replicate (Z.to_nat n) 0.
Proof.
  unfold vector_resize. destruct (Z.gtb_spec n PTRDIFF_MAX); [discriminate|].
  intros [= <-]. split; [assumption|].
  rewrite take_nil. cbn [app length]. now rewrite Nat.sub_0_r.
Qed.

Lemma length_memcpy dest src n :
  length (memcpy dest src n) = Nat.max (length (take (Z.to_nat n) src)) (length dest).
Proof. unfold memcpy. rewrite length_app, length_drop. lia. Qed.

Lemma copy_out_spec r res :
  passport.copy_out r = Returned res ->
  passport.status res = passport.native_status r
  /\ (passport.status res <> 0 -> passport.data res = [])
  /\ (passport.status res = 0 ->
      Z.of_nat (length (passport.data res)) = to_size_t (passport.native_size r)).
Proof.
  unfold passport.copy_out.
  destruct (Z.eqb_spec (passport.native_status r) 0) as [H0|Hne]; cbn.
  - destruct (vector_resize [] (to_size_t (passport.native_size r))) as [dt|e] eqn:Hdt;
      cbn; [|discriminate].
    intros [= <-]; cbn. apply vector_resize_empty in Hdt as [Hle ->].
    split; [reflexivity|]. split; [congruence|]. intros _.
    rewrite length_memcpy, length_take, length_replicate.
    assert (0 <= to_size_t (passport.native_size r))
      by (unfold to_size_t; apply Z.mod_pos_bound; lia).
    lia.
  - intros [= <-]; cbn. split; [reflexivity|]. split; [reflexivity | congruence].
Qed.

Lemma bind_returned {A B} (m : outcome A) (f : A -> outcome B) b :
  (m ≫= f) = Returned b -> exists a, m = Returned a /\ f a = Returned b.
Proof. destruct m as [a|e]; cbn; [eauto | discriminate]. Qed.

Lemma convertToObject_data res :
  obj_data (convertToObject res)
  = if passport.status res =? 0
    then Some (binary_to_string (passport.data res)) else None.
Proof. reflexivity. Qed.

Lemma copy_out_data r res :
  passport.copy_out r = Returned res ->
  passport.status res = 0 ->
  to_size_t (passport.native_size r) <= PTRDIFF_MAX
  /\ passport.data res
     = take (Z.to_nat (to_size_t (passport.native_size r))) (passport.native_data r)
       ++ replicate (Z.to_nat (to_size_t (passport.native_size r))
                     - length (passport.native_data r)) 0.
Proof.
  unfold passport.copy_out.
  destruct (Z.eqb_spec (passport.native_status r) 0) as [H0|Hne]; cbn.
  - destruct (vector_resize [] (to_size_t (passport.native_size r))) as [dt|e] eqn:Hdt;
      cbn; [|discriminate].
    intros [= <-] _; cbn. apply vector_resize_empty in Hdt as [Hle ->].
    split; [exact Hle|]. unfold memcpy.
    rewrite drop_replicate, length_take. do 2 f_equal. lia.
  - intros [= <-]; cbn. congruence.
Qed.

(** C2, as the code has it: for a result of any of the four biometric
    operations, a non-zero status comes with an empty payload and a null
    [data] in the caller-facing object, so a payload that is not empty
    comes with status 0; with status 0 the payload has the length the
    unmanaged call of that operation reported (it is empty when that is
    0) and holds the bytes of the buffer that call returned, and the
    caller-facing [data] is its hex text.  The status is the one the
    unmanaged call reported. *)
Theorem operation_result_payload
    (unmanaged_createPassportKey unmanaged_getPublicKey
       unmanaged_getPublicKeyHash : string -> outcome passport.native_result)
    (unmanaged_passportSign : string -> list Z -> Z -> outcome passport.native_result)
    (accountId : string) (challenge : list Z) (res : passport.OperationResult)
    (Hres : passport.createPassportKey unmanaged_createPassportKey accountId = Returned res
            \/ passport.passportSign unmanaged_passportSign accountId challenge = Returned res
            \/ passport.getPublicKey unmanaged_getPublicKey accountId = Returned res
            \/ passport.getPublicKeyHash unmanaged_getPublicKeyHash accountId = Returned res) :
  (passport.status res <> 0 ->
     passport.data res = [] /\ obj_data (convertToObject res) = None)
  /\ (passport.data res <> [] -> passport.status res = 0)
  /\ (passport.status res = 0 ->
        obj_data (convertToObject res) = Some (binary_to_string (passport.data res)))
  /\ exists r : passport.native_result,
       (unmanaged_createPassportKey (c_str accountId) = Returned r
          /\ passport.createPassportKey unmanaged_createPassportKey accountId
             = Returned res
        \/ unmanaged_passportSign (c_str accountId) challenge
             (passport.to_int (Z.of_nat (length challenge))) = Returned r
          /\ passport.passportSign unmanaged_passportSign accountId challenge
             = Returned res
        \/ unmanaged_getPublicKey (c_str accountId) = Returned r
          /\ passport.getPublicKey unmanaged_getPublicKey accountId = Returned res
        \/ unmanaged_getPublicKeyHash (c_str accountId) = Returned r
          /\ passport.getPublicKeyHash unmanaged_getPublicKeyHash accountId
             = Returned res)
       /\ passport.copy_out r = Returned res
       /\ passport.status res = passport.native_status r
       /\ (passport.status res = 0 ->
             Z.of_nat (length (passport.data res)) = to_size_t (passport.native_size r)
             /\ (- 2 ^ 31 <= passport.native_size r < 2 ^ 31 ->
                 Z.of_nat (length (passport.data res)) = passport.native_size r)
             /\ (to_size_t (passport.native_size r)
                 <= Z.of_nat (length (passport.native_data r)) ->
                 passport.data res
                 = take (Z.to_nat (to_size_t (passport.native_size r)))
                     (passport.native_data r))).
Proof.
  assert (Hr : exists r,
             (unmanaged_createPassportKey (c_str accountId) = Returned r
                /\ passport.createPassportKey unmanaged_createPassportKey accountId
                   = Returned res
              \/ unmanaged_passportSign (c_str accountId) challenge
                   (passport.to_int (Z.of_nat (length challenge))) = Returned r
                /\ passport.passportSign unmanaged_passportSign accountId challenge
                   = Returned res
              \/ unmanaged_getPublicKey (c_str accountId) = Returned r
                /\ passport.getPublicKey unmanaged_getPublicKey accountId
                   = Returned res
              \/ unmanaged_getPublicKeyHash (c_str accountId) = Returned r
                /\ passport.getPublicKeyHash unmanaged_getPublicKeyHash accountId
                   = Returned res)
             /\ passport.copy_out r = Returned res).
  { destruct Hres as [H|[H|[H|H]]]; pose proof H as H';
      apply bind_returned in H' as (r & Hcall & Hcopy); exists r;
      (split; [|exact Hcopy]).
    - left. now split.
    - right; left. now split.
    - right; right; left. now split.
    - right; right; right. now split. }
  destruct Hr as (r & Hcall & Hr).
  destruct (copy_out_spec r res Hr) as (Hst & Hempty & Hlen).
  rewrite convertToObject_data.
  split; [|split; [|split]].
  - intros Hne. split; [auto|]. now destruct (Z.eqb_spec (passport.status res) 0).
  - intros Hd. destruct (Z.eq_dec (passport.status res) 0); [assumption|].
    now elim Hd; apply Hempty.
  - intros ->. reflexivity.
  - exists r. split; [exact Hcall|]. split; [exact Hr|]. split; [exact Hst|].
    intros H0. destruct (copy_out_data r res Hr H0) as (Hmax & Hdata).
    split; [auto|]. split.
    + intros Hint. rewrite (Hlen H0). unfold to_size_t in *.
      destruct (Z.lt_ge_cases (passport.native_size r) 0) as [Hneg|Hpos].
      * exfalso. unfold PTRDIFF_MAX in Hmax.
        replace (passport.native_size r)
          with (passport.native_size r + 2 ^ 64 + (-1) * 2 ^ 64) in Hmax by lia.
        rewrite Z.mod_add in Hmax by lia.
        rewrite Z.mod_small in Hmax by lia. lia.
      * apply Z.mod_small. lia.
    + intros Hfits. rewrite Hdata.
      replace (Z.to_nat (to_size_t (passport.native_size r))
               - length (passport.native_data r))%nat with 0%nat by lia.
      cbn [replicate]. apply app_nil_r.
Qed.

Lemma operation_result_payload_witness :
  let res := {| passport.data := [1; 255]; passport.status := 0 |} in
  (passport.createPassportKey new_key "alice" = Returned res
   \/ passport.passportSign no_signature "alice" [] = Returned res
   \/ passport.getPublicKey no_account "alice" = Returned res
   \/ passport.getPublicKeyHash no_account "alice" = Returned res)
  /\ (passport.data res <> [] -> passport.status res = 0)
  /\ obj_data (convertToObject res) = Some "01FF"%string.
Proof.
  intros res.
  assert (H : passport.createPassportKey new_key "alice" = Returned res
   \/ passport.passportSign no_signature "alice" [] = Returned res
   \/ passport.getPublicKey no_account "alice" = Returned res
   \/ passport.getPublicKeyHash no_account "alice" = Returned res) by (left; reflexivity).
  split; [exact H|].
  destruct (operation_result_payload new_key no_account no_account no_signature
              "alice" [] res H) as (_ & Hd & Hs & _).
  split; [exact Hd | exact (Hs eq_refl)].
Defined.

(** C2 as stated fails: an unmanaged call that reports status 0 and a
    length of 0 gives a result with status 0 and an empty payload, and
    the caller-facing [data] is the empty text, not null. *)
Lemma operation_result_iff_counterexample :
  exists res : passport.OperationResult,
    passport.createPassportKey empty_key "alice" = Returned res
    /\ passport.status res = 0
    /\ passport.data res = []
    /\ obj_data (convertToObject res) = Some EmptyString.
Proof. exists {| passport.data := []; passport.status := 0 |}. repeat split. Qed.

(** ** The protector bridge *)

(** C7: when [passwords::encrypt] or [passwords::decrypt] returns
    [false], the caller's [data] is what it was before the call; the
    buffer differs afterwards only if the call returned [true]. *)
Theorem protector_failure_keeps_data
    (util_encrypt util_decrypt : list Z -> bool * option (list Z))
    (data data' : list Z) (r : bool)
    (H : passwords.encrypt util_encrypt data = Some (r, data')
         \/ passwords.decrypt util_decrypt data = Some (r, data')) :
  (r = false -> data' = data) /\ (data' <> data -> r = true).
Proof.
  assert (Hr : r = false -> data' = data).
  { intros ->. destruct H as [H|H];
      [unfold passwords.encrypt in H; destruct (util_encrypt data) as [[] [o|]]
      |unfold passwords.decrypt in H; destruct (util_decrypt data) as [[] [o|]]];
      cbn in H; congruence. }
  split; [exact Hr|]. intros Hne. destruct r; [reflexivity | now elim Hne; apply Hr].
Qed.

Lemma protector_failure_keeps_data_witness :
  (passwords.encrypt protector_down [104; 105] = Some (false, [104; 105])
   \/ passwords.decrypt protector_down [104; 105] = Some (false, [104; 105]))
  /\ ((false = false -> [104; 105] = [104; 105] :> list Z)
      /\ ([104; 105] <> [104; 105] :> list Z -> false = true)).
Proof.
  assert (H : passwords.encrypt protector_down [104; 105] = Some (false, [104; 105])
   \/ passwords.decrypt protector_down [104; 105] = Some (false, [104; 105]))
    by (left; reflexivity).
  split; [exact H|].
  exact (protector_failure_keeps_data protector_down protector_down _ _ _ H).
Defined.

(** C8: when the unmanaged query reports that it could not tell
    ([ok] is false), [passwords::isEncrypted] throws an
    [encryptionException], whatever flag the query returned; it returns
    a boolean, the query's, only when the query reported [ok]. *)
Theorem isEncrypted_indeterminate_throws
    (util_isEncrypted : list Z -> bool * bool) (data : list Z) :
  (snd (util_isEncrypted data) = false ->
     passwords.isEncrypted util_isEncrypted data
     = Thrown (encryptionException "Could not check if data is encrypted"))
  /\ (forall b : bool,
        passwords.isEncrypted util_isEncrypted data = Returned b ->
        snd (util_isEncrypted data) = true /\ fst (util_isEncrypted data) = b).
Proof.
  unfold passwords.isEncrypted.
  destruct (util_isEncrypted data) as [res []]; cbn; split;
    solve [discriminate | reflexivity | intros b [= <-]; split; reflexivity
          | intros b [=]].
Qed.

Lemma isEncrypted_indeterminate_throws_witness :
  snd (query_failed [104; 105]) = false
  /\ passwords.isEncrypted query_failed [104; 105]
     = Thrown (encryptionException "Could not check if data is encrypted").
Proof.
  split; [reflexivity|].
  exact (proj1 (isEncrypted_indeterminate_throws query_failed [104; 105]) eq_refl).
Defined.

(** ** The asynchronous workers *)

Lemma string_length_zero (s : string) : Nat.eqb (String.length s) 0 = true -> s = EmptyString.
Proof. now destruct s. Qed.

Lemma createPassportKeyAsync_settles f account :
  exists s : settlement,
    workers.createPassportKeyWorker.deferred (createPassportKeyAsync f account) = [s]
    /\ (forall e, passport.createPassportKey f account = Thrown e ->
          (caught_message e <> EmptyString /\ s = Reject (caught_message e))
          \/ (caught_message e = EmptyString /\ s = Resolve status_only))
    /\ (forall res, passport.createPassportKey f account = Returned res ->
          s = Resolve (convertToObject res)).
Proof.
  unfold createPassportKeyAsync, Queue, OnWorkComplete.
  cbn [Execute _error OnOK OnError workers.createPassportKeyWorker.worker].
  unfold workers.createPassportKeyWorker.Execute.
  cbn [workers.createPassportKeyWorker.new workers.createPassportKeyWorker.account].
  destruct (passport.createPassportKey f account) as [res|e].
  - cbn. eexists. split; [reflexivity|]. split; [discriminate|].
    intros ? [= <-]. unfold convertToObject, passport.ok.
    now destruct (passport.status res =? 0).
  - cbn [workers.createPassportKeyWorker.SetError workers.createPassportKeyWorker.error].
    destruct (Nat.eqb (String.length (caught_message e)) 0) eqn:Hlen.
    + apply string_length_zero in Hlen. cbn. eexists. split; [reflexivity|].
      split; [|discriminate]. intros ? [= <-]. right. split; [assumption | reflexivity].
    + cbn. eexists. split; [reflexivity|]. split; [|discriminate].
      intros ? [= <-]. left. split; [|reflexivity].
      intros Heq. rewrite Heq in Hlen. discriminate.
Qed.

Lemma passportSignAsync_settles f account challenge :
  let body := workers.passportSignWorker.sign f account challenge in
  exists s : settlement,
    workers.passportSignWorker.deferred (passportSignAsync f account challenge) = [s]
    /\ (forall e, body = Thrown e ->
          (caught_message e <> EmptyString /\ s = Reject (caught_message e))
          \/ (caught_message e = EmptyString /\ s = Resolve status_only))
    /\ (forall res, body = Returned res -> s = Resolve (convertToObject res)).
Proof.
  intros body.
  unfold passportSignAsync, Queue, OnWorkComplete.
  cbn [Execute _error OnOK OnError workers.passportSignWorker.worker].
  unfold workers.passportSignWorker.Execute.
  cbn [workers.passportSignWorker.new workers.passportSignWorker.account
       workers.passportSignWorker.challenge].
  fold body. destruct body as [res|e].
  - cbn. eexists. split; [reflexivity|]. split; [discriminate|].
    intros ? [= <-]. unfold convertToObject, passport.ok.
    now destruct (passport.status res =? 0).
  - cbn [workers.passportSignWorker.SetError workers.passportSignWorker.error].
    destruct (Nat.eqb (String.length (caught_message e)) 0) eqn:Hlen.
    + apply string_length_zero in Hlen. cbn. eexists. split; [reflexivity|].
      split; [|discriminate]. intros ? [= <-]. right. split; [assumption | reflexivity].
    + cbn. eexists. split; [reflexivity|]. split; [|discriminate].
      intros ? [= <-]. left. split; [|reflexivity].
      intros Heq. rewrite Heq in Hlen. discriminate.
Qed.

(** The one signal for a body that throws, read off the exception. *)
Lemma thrown_signal (e : exn) (s : settlement) :
  (caught_message e <> EmptyString /\ s = Reject (caught_message e))
  \/ (caught_message e = EmptyString /\ s = Resolve status_only) ->
  failure s
  /\ (forall msg, what e = Some msg -> c_str msg <> EmptyString ->
        s = Reject (c_str msg))
  /\ (forall msg, what e = Some msg -> c_str msg = EmptyString ->
        s = Resolve {| obj_status := 1; obj_ok := false; obj_data := None |})
  /\ (what e = None -> s = Reject "An unknown exception occurred").
Proof.
  unfold caught_message. intros [[Hmsg ->]|[Hmsg ->]].
  - split; [exact I|]. split; [|split].
    + now intros msg ->.
    + intros msg Hw Hempty. rewrite Hw in Hmsg. contradiction.
    + now intros ->.
  - split; [cbn; repeat split; discriminate|]. split; [|split].
    + intros msg Hw Hfull. rewrite Hw in Hmsg. contradiction.
    + reflexivity.
    + intros Hw. rewrite Hw in Hmsg. discriminate.
Qed.

(** C9: each asynchronous request signals its promise exactly once.
    When the worker body throws, whatever the exception, the one signal
    is a failure: a rejection with the message of the exception, that
    is the text [what()] points to, or with ["An unknown exception
    occurred"] for an exception that does not derive from
    [std::exception]; or, when the message of the exception is empty, a
    resolved status object with status 1 and null data.  When the body
    returns, the one signal resolves the promise with the object
    [convertToObject] builds for the result.  [Execute] has no path on
    which an exception leaves it. *)
Theorem async_request_settles_once
    (unmanaged_createPassportKey : string -> outcome passport.native_result)
    (unmanaged_passportSign : string -> list Z -> Z -> outcome passport.native_result)
    (account challenge : string) :
  (exists s : settlement,
     workers.createPassportKeyWorker.deferred
       (createPassportKeyAsync unmanaged_createPassportKey account) = [s]
     /\ (forall e, passport.createPassportKey unmanaged_createPassportKey account = Thrown e ->
           failure s
           /\ (forall msg, what e = Some msg -> c_str msg <> EmptyString ->
                 s = Reject (c_str msg))
           /\ (forall msg, what e = Some msg -> c_str msg = EmptyString ->
                 s = Resolve {| obj_status := 1; obj_ok := false; obj_data := None |})
           /\ (what e = None -> s = Reject "An unknown exception occurred"))
     /\ (forall res,
           passport.createPassportKey unmanaged_createPassportKey account = Returned res ->
           s = Resolve (convertToObject res)))
  /\ (exists s : settlement,
        workers.passportSignWorker.deferred
          (passportSignAsync unmanaged_passportSign account challenge) = [s]
        /\ (forall e,
              workers.passportSignWorker.sign unmanaged_passportSign account challenge = Thrown e ->
              failure s
              /\ (forall msg, what e = Some msg -> c_str msg <> EmptyString ->
                    s = Reject (c_str msg))
              /\ (forall msg, what e = Some msg -> c_str msg = EmptyString ->
                    s = Resolve {| obj_status := 1; obj_ok := false;
                                   obj_data := None |})
              /\ (what e = None -> s = Reject "An unknown exception occurred"))
        /\ (forall res,
              workers.passportSignWorker.sign unmanaged_passportSign account challenge = Returned res ->
              s = Resolve (convertToObject res))).
Proof.
  split.
  - destruct (createPassportKeyAsync_settles unmanaged_createPassportKey account)
      as (s & Hs & Hthrown & Hret).
    exists s. split; [exact Hs|]. split; [|exact Hret].
    intros e He. apply thrown_signal. exact (Hthrown e He).
  - destruct (passportSignAsync_settles unmanaged_passportSign account challenge)
      as (s & Hs & Hthrown & Hret).
    exists s. split; [exact Hs|]. split; [|exact Hret].
    intros e He. apply thrown_signal. exact (Hthrown e He).
Qed.

Lemma async_request_settles_once_witness :
  workers.createPassportKeyWorker.deferred
    (createPassportKeyAsync engine_fault "alice")
  = [Reject "An unknown exception occurred"]
  /\ workers.passportSignWorker.deferred (passportSignAsync signed "alice" "G1")
     = [Reject "Invalid character: 'G' is not a valid hex digit"]
  /\ workers.passportSignWorker.deferred (passportSignAsync signed "alice" "0G1")
     = [Resolve {| obj_status := 0; obj_ok := true; obj_data := Some "AB"%string |}].
Proof.
  destruct (async_request_settles_once engine_fault signed "alice" "G1")
    as [(s1 & H1 & Ht1 & _) (s2 & H2 & Ht2 & _)].
  destruct (async_request_settles_once engine_fault signed "alice" "0G1")
    as [_ (s3 & H3 & _ & Hr3)].
  rewrite H1, H2, H3.
  destruct (Ht1 foreign_exception eq_refl) as (_ & _ & _ & Hs1).
  destruct (Ht2 (std_exception (invalid_character "G")) eq_refl) as (_ & Hs2 & _).
  rewrite (Hs1 eq_refl).
  rewrite (Hs2 _ eq_refl ltac:(discriminate)).
  rewrite (Hr3 {| passport.data := [171]; passport.status := 0 |} eq_refl).
  repeat split.
Defined.

(** * Properties of the functions around *)

(** ** More on the hex codec *)

Lemma to_uchar_is_byte i : is_byte (to_uchar i).
Proof. unfold is_byte, to_uchar. apply Z.mod_pos_bound. lia. Qed.

Lemma pair_value_is_byte c d : is_byte (pair_value c d).
Proof.
  unfold pair_value. destruct (crt.isxdigit (char_to_int d)); apply to_uchar_is_byte.
Qed.

Lemma string_to_binary_loop_returned t :
  forall retval bs,
    string_to_binary_loop t retval = Returned bs ->
    length bs = (length retval + Nat.div (String.length t + 1) 2)%nat
    /\ (Forall is_byte retval -> Forall is_byte bs).
Proof.
  induction t as [|c|c d tl IH] using string_pair_ind; intros retval bs.
  - cbn [string_to_binary_loop String.length]. intros [= <-].
    change (Nat.div (0 + 1) 2) with 0%nat. split; [lia | intros Hr; exact Hr].
  - cbn [string_to_binary_loop]. destruct (crt.isxdigit (char_to_int c)); [|discriminate].
    intros [= <-]. rewrite length_app. cbn [length String.length].
    change (Nat.div (1 + 1) 2) with 1%nat. split; [lia|].
    intros Hr. apply Forall_app. split; [exact Hr|].
    constructor; [apply to_uchar_is_byte | constructor].
  - destruct (crt.isxdigit (char_to_int c)) eqn:Hc.
    + rewrite string_to_binary_loop_pair by exact Hc. intros Hloop.
      apply IH in Hloop as [Hlen Hbytes]. rewrite length_app in Hlen.
      cbn [length String.length] in *. split.
      * rewrite Hlen.
        replace (S (S (String.length tl)) + 1)%nat
          with (String.length tl + 1 + 1 * 2)%nat by lia.
        rewrite Nat.div_add by lia. lia.
      * intros Hr. apply Hbytes, Forall_app. split; [exact Hr|].
        constructor; [apply pair_value_is_byte | constructor].
    + rewrite string_to_binary_loop_invalid by exact Hc. discriminate.
Qed.

(** X3: whenever the decoder returns, it returns (length + 1) / 2
    bytes, one for each pair of characters and one for a last lone
    character, and every one of them is a value from 0 to 255. *)
Theorem string_to_binary_length (text : string) (bs : list Z)
    (Hret : string_to_binary text = Returned bs) :
  length bs = Nat.div (String.length text + 1) 2 /\ Forall is_byte bs.
Proof.
  apply string_to_binary_loop_returned in Hret as [Hlen Hbytes].
  split; [exact Hlen | apply Hbytes; constructor].
Qed.

Lemma string_to_binary_length_witness :
  string_to_binary "0aF" = Returned [10; 240]
  /\ length [10; 240] = Nat.div (String.length "0aF" + 1) 2
  /\ Forall is_byte [10; 240].
Proof.
  split; [reflexivity|].
  exact (string_to_binary_length "0aF" [10; 240] eq_refl).
Defined.

Lemma pair_reencoded c d :
  crt.isxdigit (char_to_int c) = true ->
  crt.isxdigit (char_to_int d) = true ->
  hi_sym (pair_value c d) = upper_char c /\ lo_sym (pair_value c d) = upper_char d.
Proof.
  intros Hc Hd.
  assert (H : pair_reencodes c d = true).
  { assert (Hall : forall c, forallb (pair_reencodes c) all_chars = true).
    { apply char_cases. vm_compute. reflexivity. }
    specialize (Hall c). rewrite forallb_forall in Hall. apply Hall.
    apply in_map_iff. exists (Z.of_N (N_of_ascii d)). split.
    - rewrite N2Z.id. apply ascii_N_embedding.
    - apply list_elem_of_In, elem_of_seqZ. pose proof (N_ascii_bounded d). lia. }
  unfold pair_reencodes in H. rewrite Hc, Hd in H. cbn [andb] in H.
  apply andb_prop in H as [H1 H2]. split; now apply Ascii.eqb_eq.
Qed.

(** X4: a text of an even number of hexadecimal digits decodes, and
    encoding the bytes gives the text back in upper case. *)
Theorem binary_to_string_of_string_to_binary (text : string)
    (Heven : Nat.even (String.length text) = true)
    (Hhex : all_xdigit text = true) :
  exists bs : list Z,
    string_to_binary text = Returned bs
    /\ binary_to_string bs = uppercase text.
Proof.
  exists (decode_pairs text). split.
  - unfold string_to_binary.
    pose proof (string_to_binary_loop_even_prefix text Heven Hhex EmptyString []) as H.
    replace (text +:+ EmptyString) with text in H; [exact H|].
    clear. induction text as [|c t IH]; [reflexivity|].
    change (String c t +:+ EmptyString) with (String c (t +:+ EmptyString)).
    now rewrite <- IH.
  - unfold uppercase. revert Heven Hhex.
    induction text as [|c|c d tl IH] using string_pair_ind; intros Heven Hhex.
    + reflexivity.
    + discriminate.
    + cbn [all_xdigit] in Hhex. apply andb_prop in Hhex as [Hc [Hd Htl]%andb_prop].
      cbn [decode_pairs binary_to_string map_chars].
      fold (hi_sym (pair_value c d)) (lo_sym (pair_value c d)).
      destruct (pair_reencoded c d Hc Hd) as [-> ->].
      now rewrite IH.
Qed.

Lemma binary_to_string_of_string_to_binary_witness :
  Nat.even (String.length "0aFf") = true
  /\ all_xdigit "0aFf" = true
  /\ exists bs : list Z,
       string_to_binary "0aFf" = Returned bs /\ binary_to_string bs = "0AFF"%string.
Proof.
  split; [reflexivity|]. split; [reflexivity|].
  exact (binary_to_string_of_string_to_binary "0aFf" eq_refl eq_refl).
Defined.

Lemma string_to_binary_loop_throws t : forall retval,
  (exists e, string_to_binary_loop t retval = Thrown e)
  <-> exists i c, Nat.even i = true /\ String.get i t = Some c
                  /\ crt.isxdigit (char_to_int c) = false.
Proof.
  induction t as [|c|c d tl IH] using string_pair_ind; intros retval.
  - cbn. split; [intros [e [=]] | intros (i & c & _ & [=] & _)].
  - destruct (crt.isxdigit (char_to_int c)) eqn:Hc.
    + rewrite string_to_binary_loop_lone by exact Hc. split; [intros [e [=]]|].
      intros ([|[|i]] & c' & Hi & Hget & Hbad); cbn in Hget, Hi; try discriminate.
      injection Hget as <-. congruence.
    + rewrite string_to_binary_loop_invalid by exact Hc.
      split; [|intros _; eexists; reflexivity].
      intros _. exists 0%nat, c. repeat split. exact Hc.
  - destruct (crt.isxdigit (char_to_int c)) eqn:Hc.
    + rewrite string_to_binary_loop_pair by exact Hc. rewrite IH. split.
      * intros (i & c' & Hi & Hget & Hbad). exists (S (S i)), c'. repeat split; assumption.
      * intros ([|[|i]] & c' & Hi & Hget & Hbad); cbn in Hget, Hi; try discriminate.
        -- injection Hget as <-. congruence.
        -- exists i, c'. repeat split; assumption.
    + rewrite string_to_binary_loop_invalid by exact Hc.
      split; [|intros _; eexists; reflexivity].
      intros _. exists 0%nat, c. repeat split. exact Hc.
Qed.

(** X15: the decoder throws exactly on the texts that hold, at some even
    index (counted from 0), a character that is not a hexadecimal
    digit; every other text is decoded, whatever stands at its odd
    indices. *)
Theorem string_to_binary_throws_iff (text : string) :
  (exists e, string_to_binary text = Thrown e)
  <-> exists i c, Nat.even i = true /\ String.get i text = Some c
                  /\ crt.isxdigit (char_to_int c) = false.
Proof. unfold string_to_binary. apply string_to_binary_loop_throws. Qed.

(** ** removeNamespace and checkArgs *)

Lemma rfind_from_last_index s c : forall i found,
  rfind_from s c i found
  = match last_index s c with
    | Some k => i + Z.of_nat k
    | None => found
    end.
Proof.
  induction s as [|d tl IH]; intros i found; cbn [rfind_from last_index]; [reflexivity|].
  rewrite IH. destruct (last_index tl c) as [k|]; [lia|].
  destruct (Ascii.eqb d c); [lia | reflexivity].
Qed.

Lemma last_index_none s c :
  last_index s c = None -> ~ In c (list_ascii_of_string s).
Proof.
  induction s as [|d tl IH]; cbn [last_index list_ascii_of_string]; [intros _ []|].
  destruct (last_index tl c) as [k|]; [discriminate|].
  destruct (Ascii.eqb_spec d c) as [|Hne]; [discriminate|].
  intros _ [Heq|Hin]; [exact (Hne Heq) | exact (IH eq_refl Hin)].
Qed.

Lemma last_index_some s c : forall k,
  last_index s c = Some k ->
  (k < String.length s)%nat
  /\ exists prefix,
       s = prefix +:+ String c (string_drop (S k) s)
       /\ ~ In c (list_ascii_of_string (string_drop (S k) s)).
Proof.
  induction s as [|d tl IH]; intros k; cbn [last_index]; [discriminate|].
  destruct (last_index tl c) as [j|] eqn:Hj.
  - intros [= <-]. destruct (IH j eq_refl) as (Hlt & prefix & Heq & Hnone).
    change (string_drop (S (S j)) (String d tl)) with (string_drop (S j) tl).
    cbn [String.length]. split; [lia|].
    exists (String d prefix). split; [|exact Hnone].
    change (String d prefix +:+ String c (string_drop (S j) tl))
      with (String d (prefix +:+ String c (string_drop (S j) tl))).
    now rewrite <- Heq.
  - destruct (Ascii.eqb_spec d c) as [->|]; [|discriminate].
    intros [= <-].
    change (string_drop 1 (String c tl)) with (string_drop 0 tl).
    replace (string_drop 0 tl) with tl by now destruct tl.
    cbn [String.length]. split; [lia|].
    exists EmptyString. split; [reflexivity|].
    now apply last_index_none.
Qed.

(** X5: [removeNamespace] never throws; what it returns holds no
    colon and is the part of the name after its last colon, the whole
    name when there is none ([rfind] gives [npos], and [npos + 1] wraps
    to 0). *)
Theorem removeNamespace_keeps_last_component (str : string)
    (Hsize : Z.of_nat (String.length str) < SIZE_MAX) :
  exists name : string,
    util.removeNamespace str = Returned name
    /\ ~ In ":"%char (list_ascii_of_string name)
    /\ (str = name \/ exists prefix, str = prefix +:+ String ":" name)
    /\ (~ In ":"%char (list_ascii_of_string str) -> name = str).
Proof.
  unfold util.removeNamespace, rfind, substr. rewrite rfind_from_last_index.
  destruct (last_index str ":") as [k|] eqn:Hk.
  - destruct (last_index_some str ":" k Hk) as (Hlt & prefix & Heq & Hnone).
    assert (Hpos : to_size_t (0 + Z.of_nat k + 1) = Z.of_nat (S k)).
    { unfold to_size_t. rewrite Z.mod_small; unfold SIZE_MAX in *; lia. }
    rewrite Hpos, Nat2Z.id.
    destruct (Z.gtb_spec (Z.of_nat (S k)) (Z.of_nat (String.length str))); [lia|].
    eexists. split; [reflexivity|]. split; [exact Hnone|]. split.
    + right. now exists prefix.
    + intros Hno. exfalso. apply Hno. rewrite Heq.
      clear. induction prefix as [|d p IH]; [left; reflexivity|].
      change (String d p +:+ String ":" (string_drop (S k) str))
        with (String d (p +:+ String ":" (string_drop (S k) str))).
      right. exact IH.
  - assert (Hpos : to_size_t (npos + 1) = 0) by reflexivity.
    rewrite Hpos. cbn [Z.to_nat].
    destruct (Z.gtb_spec 0 (Z.of_nat (String.length str))); [lia|].
    replace (string_drop 0 str) with str by now destruct str.
    exists str. split; [reflexivity|].
    split; [now apply last_index_none|]. split; [now left | reflexivity].
Qed.

Lemma removeNamespace_keeps_last_component_witness :
  Z.of_nat (String.length "workers::passportSignWorker::Execute") < SIZE_MAX
  /\ exists name : string,
       util.removeNamespace "workers::passportSignWorker::Execute" = Returned name
       /\ ~ In ":"%char (list_ascii_of_string name)
       /\ ("workers::passportSignWorker::Execute"%string = name
           \/ exists prefix,
                "workers::passportSignWorker::Execute"%string = prefix +:+ String ":" name)
       /\ (~ In ":"%char (list_ascii_of_string "workers::passportSignWorker::Execute")
           -> name = "workers::passportSignWorker::Execute"%string).
Proof.
  assert (H : Z.of_nat (String.length "workers::passportSignWorker::Execute") < SIZE_MAX)
    by (unfold SIZE_MAX; cbn; lia).
  split; [exact H|].
  exact (removeNamespace_keeps_last_component _ H).
Defined.

Lemma checkArgs_loop_branch info funcName t rest i :
  util.checkArgs_loop info funcName (t :: rest) i
  = if accepts t (info_at info i)
    then util.checkArgs_loop info funcName rest (S i)
    else Throws (util.mismatch funcName (type_name t) i).
Proof.
  destruct t; cbn [util.checkArgs_loop accepts type_name];
    match goal with |- context [negb ?b] => destruct b end; reflexivity.
Qed.

Lemma checkArgs_loop_accepts info funcName types : forall i,
  util.checkArgs_loop info funcName types i = Value tt
  <-> forall j t, types !! j = Some t -> accepts t (info_at info (i + j)) = true.
Proof.
  induction types as [|t rest IH]; intros i.
  - cbn. split; [intros _ j t Hj; discriminate | reflexivity].
  - rewrite checkArgs_loop_branch.
    destruct (accepts t (info_at info i)) eqn:Ht.
    + rewrite IH. split.
      * intros H [|j] t' Hj.
        -- cbn in Hj. injection Hj as <-. now rewrite Nat.add_0_r.
        -- cbn in Hj. specialize (H j t' Hj).
           now replace (i + S j)%nat with (S i + j)%nat by lia.
      * intros H j t' Hj. specialize (H (S j) t' Hj).
        now replace (i + S j)%nat with (S i + j)%nat in H by lia.
    + split; [discriminate|]. intros H.
      specialize (H 0%nat t eq_refl). rewrite Nat.add_0_r in H. congruence.
Qed.

Lemma checkArgs_loop_first_mismatch info funcName types : forall i j t,
  types !! j = Some t ->
  accepts t (info_at info (i + j)) = false ->
  (forall k t', (k < j)%nat -> types !! k = Some t' ->
                accepts t' (info_at info (i + k)) = true) ->
  util.checkArgs_loop info funcName types i
  = Throws (util.mismatch funcName (type_name t) (i + j)).
Proof.
  induction types as [|t0 rest IH]; intros i j t Hj Hbad Hbefore; [discriminate|].
  rewrite checkArgs_loop_branch. destruct j as [|j].
  - cbn in Hj. injection Hj as <-. rewrite Nat.add_0_r in *. now rewrite Hbad.
  - pose proof (Hbefore 0%nat t0 ltac:(lia) eq_refl) as H0.
    rewrite Nat.add_0_r in H0. rewrite H0.
    rewrite (IH (S i) j t); [f_equal; f_equal; lia | exact Hj | |].
    + now replace (S i + j)%nat with (i + S j)%nat by lia.
    + intros k t' Hk Hkt. specialize (Hbefore (S k) t' ltac:(lia) Hkt).
      now replace (S i + k)%nat with (i + S k)%nat by lia.
Qed.

Lemma checkArgs_value info funcName types :
  util.checkArgs info funcName types = Value tt
  <-> (length types <= length info)%nat
      /\ forall j t, types !! j = Some t -> accepts t (info_at info j) = true.
Proof.
  unfold util.checkArgs.
  destruct (Nat.ltb_spec (length info) (length types)) as [Hlt|Hge].
  - split; [discriminate | intros [Hle _]; lia].
  - rewrite checkArgs_loop_accepts. split; [intros H; split; [exact Hge | exact H]|].
    intros [_ H]. exact H.
Qed.

Lemma checkArgs_loop_cases info funcName types : forall i,
  util.checkArgs_loop info funcName types i = Value tt
  \/ exists m, util.checkArgs_loop info funcName types i = Throws (Napi_TypeError m).
Proof.
  induction types as [|t rest IH]; intros i; [left; reflexivity|].
  rewrite checkArgs_loop_branch. destruct (accepts t (info_at info i)); [apply IH|].
  right. eexists. reflexivity.
Qed.

Lemma checkArgs_cases info funcName types :
  util.checkArgs info funcName types = Value tt
  \/ exists m, util.checkArgs info funcName types = Throws (Napi_TypeError m).
Proof.
  unfold util.checkArgs. destruct (length info <? length types)%nat.
  - right. eexists. reflexivity.
  - apply checkArgs_loop_cases.
Qed.

(** X6: [checkArgs] returns exactly when there are at least as many
    arguments as listed types and each listed position holds a value of
    its type; more arguments are not looked at.  With too few arguments
    it throws the TypeError that gives the number required; otherwise
    the TypeError names the first position (counted from 1) whose value
    has the wrong type, and the type required there. *)
Theorem checkArgs_accepts (info : list js_value) (funcName : string)
    (types : list type) :
  (util.checkArgs info funcName types = Value tt
   <-> (length types <= length info)%nat
       /\ forall j t, types !! j = Some t -> accepts t (info_at info j) = true)
  /\ ((length info < length types)%nat ->
      util.checkArgs info funcName types
      = Throws (Napi_TypeError (funcName +:+ " requires "
                                +:+ to_string (length types) +:+ " arguments")))
  /\ (forall j t,
        (length types <= length info)%nat ->
        types !! j = Some t ->
        accepts t (info_at info j) = false ->
        (forall k t', (k < j)%nat -> types !! k = Some t' ->
                      accepts t' (info_at info k) = true) ->
        util.checkArgs info funcName types
        = Throws (Napi_TypeError ("Argument type mismatch: " +:+ funcName
                                  +:+ " requires type " +:+ type_name t
                                  +:+ " at position " +:+ to_string (j + 1)))).
Proof.
  split; [apply checkArgs_value|]. unfold util.checkArgs.
  destruct (Nat.ltb_spec (length info) (length types)) as [Hlt|Hge].
  - split; [reflexivity | intros; lia].
  - split; [intros; lia|].
    intros j t _ Hj Hbad Hbefore.
    exact (checkArgs_loop_first_mismatch info funcName types 0 j t Hj Hbad Hbefore).
Qed.

Lemma checkArgs_accepts_witness :
  util.checkArgs sample_info "passportSign" [STRING; STRING]
  = Throws (Napi_TypeError
              "Argument type mismatch: passportSign requires type string at position 2").
Proof.
  exact (proj2 (proj2 (checkArgs_accepts sample_info "passportSign" [STRING; STRING]))
           1%nat STRING ltac:(cbn; lia) eq_refl eq_refl
           ltac:(intros [|k] t' Hk Ht; [injection Ht as <-; reflexivity | lia])).
Defined.

(** ** The allocator's overflow guard *)

(** X7: [allocate(n)] throws [bad_alloc] whenever [n * sizeof(T)] does
    not fit a [size_t]; otherwise it is [::operator new] asked for
    exactly [n * sizeof(T)] bytes, a product that did not wrap, and
    [allocate] returns its block or lets its [bad_alloc] through.  So a
    block that [allocate] returns has [n * sizeof(T)] bytes, and no
    other exception leaves it. *)
Theorem allocate_overflow_guard (sizeof_T n : Z) (h : heap)
    (HT : 0 < sizeof_T) (Hn : 0 <= n) :
  (SIZE_MAX < n * sizeof_T ->
   zallocator.allocate sizeof_T n h = Thrown bad_alloc)
  /\ (n * sizeof_T <= SIZE_MAX ->
      zallocator.allocate sizeof_T n h = operator_new (n * sizeof_T) h)
  /\ (forall p h',
        zallocator.allocate sizeof_T n h = Returned (p, h') ->
        n * sizeof_T <= SIZE_MAX
        /\ live h' !! p = Some (n * sizeof_T))
  /\ (forall e, zallocator.allocate sizeof_T n h = Thrown e -> e = bad_alloc).
Proof.
  unfold zallocator.allocate.
  pose proof (Z.mul_div_le SIZE_MAX sizeof_T HT) as Hlow.
  pose proof (Z.mul_succ_div_gt SIZE_MAX sizeof_T HT) as Hhigh.
  destruct (Z.gtb_spec n (SIZE_MAX / sizeof_T)) as [Hgt|Hle].
  - assert (SIZE_MAX < n * sizeof_T) by nia.
    split; [reflexivity|]. split; [intros; lia|].
    split; [discriminate | now intros e [= <-]].
  - assert (Hfit : n * sizeof_T <= SIZE_MAX) by nia.
    assert (Hsame : to_size_t (n * sizeof_T) = n * sizeof_T).
    { unfold to_size_t. apply Z.mod_small. unfold SIZE_MAX in *. nia. }
    rewrite Hsame.
    split; [intros; lia|]. split; [reflexivity|]. split.
    + intros p h' Hnew. split; [exact Hfit|].
      apply operator_new_returned in Hnew as [_ [= -> ->]].
      cbn [live]. apply lookup_insert_eq.
    + unfold operator_new. destruct (capacity h <? n * sizeof_T); [|discriminate].
      now intros e [= <-].
Qed.

Lemma allocate_overflow_guard_witness :
  0 < 2 /\ 0 <= 2 ^ 63
  /\ zallocator.allocate 2 (2 ^ 63) empty_heap = Thrown bad_alloc.
Proof.
  split; [lia|]. split; [lia|].
  apply (proj1 (allocate_overflow_guard 2 (2 ^ 63) empty_heap ltac:(lia) ltac:(lia))).
  unfold SIZE_MAX; lia.
Defined.

(** Past the guard the answer is that of [::operator new]: the request
    the guard lets through, [2 ^ 63 - 1] elements of two bytes, is
    refused by a store that cannot supply it, and a small one is
    granted. *)
Example allocate_past_the_guard :
  zallocator.allocate 2 (2 ^ 63 - 1) empty_heap = Thrown bad_alloc
  /\ zallocator.allocate 2 3 empty_heap = Returned (carve 6 empty_heap).
Proof. split; reflexivity. Qed.


(** ** Wide strings and their bytes *)

Lemma wstring_bytes_is_byte w : Forall is_byte (wstring_bytes w).
Proof.
  unfold wstring_bytes. induction w as [|c w IH]; [constructor|].
  cbn [mbind list_bind]. apply Forall_app. split; [|exact IH].
  unfold wchar_bytes, is_byte.
  repeat constructor; apply Z.mod_pos_bound; lia.
Qed.

Lemma bytes_wstring_wstring_bytes w :
  Forall is_wchar w -> bytes_wstring (wstring_bytes w) = w.
Proof.
  unfold wstring_bytes. induction 1 as [|c w Hc _ IH]; [reflexivity|].
  cbn [mbind list_bind] in *. unfold wchar_bytes at 1. cbn [app bytes_wstring].
  rewrite IH. f_equal. unfold is_wchar in Hc.
  rewrite (Z.mod_small (c / 256)) by
    (split; [apply Z.div_pos; lia | apply Z.div_lt_upper_bound; lia]).
  pose proof (Z.div_mod c 256). lia.
Qed.

Lemma even_length_wstring_bytes w : Nat.even (length (wstring_bytes w)) = true.
Proof. rewrite length_wstring_bytes. apply Nat.even_spec. now exists (length w). Qed.

(** X8: [getBytes] of a wide string gives two bytes for each
    character, and the constructor from a byte vector rebuilds the
    string from them, without a diagnostic. *)
Theorem wstring_bytes_round_trip (w : list Z) (stderr : list string)
    (Hchars : Forall is_wchar w)
    (Hsize : Z.of_nat (length w) * sizeof_wchar_t <= PTRDIFF_MAX) :
  exists bytes : list Z,
    secure_wstring.getBytes w = Returned bytes
    /\ length bytes = (2 * length w)%nat
    /\ Forall is_byte bytes
    /\ secure_wstring.of_secure_vector bytes stderr = (w, stderr).
Proof.
  exists (wstring_bytes w). split; [now apply getBytes_spec|].
  split; [apply length_wstring_bytes|]. split; [apply wstring_bytes_is_byte|].
  rewrite of_secure_vector_spec, even_length_wstring_bytes.
  now rewrite bytes_wstring_wstring_bytes.
Qed.

Lemma wstring_bytes_round_trip_witness :
  Forall is_wchar [104; 300]
  /\ Z.of_nat (length [104; 300]) * sizeof_wchar_t <= PTRDIFF_MAX
  /\ exists bytes : list Z,
       secure_wstring.getBytes [104; 300] = Returned bytes
       /\ length bytes = (2 * length [104; 300]%Z)%nat
       /\ Forall is_byte bytes
       /\ secure_wstring.of_secure_vector bytes [] = ([104; 300], []).
Proof.
  assert (Hc : Forall is_wchar [104; 300])
    by (repeat constructor; unfold is_wchar; lia).
  assert (Hs : Z.of_nat (length [104; 300]) * sizeof_wchar_t <= PTRDIFF_MAX)
    by (unfold PTRDIFF_MAX, sizeof_wchar_t; cbn; lia).
  split; [exact Hc|]. split; [exact Hs|].
  exact (wstring_bytes_round_trip [104; 300] [] Hc Hs).
Defined.

(** ** The exported callbacks *)

Lemma CHECK_ARGS_cases info function types :
  (exists name, util.removeNamespace function = Returned name) ->
  CHECK_ARGS info function types = Value tt
  \/ exists m, CHECK_ARGS info function types = Throws (Napi_TypeError m).
Proof.
  intros [name Hname]. unfold CHECK_ARGS. rewrite Hname. apply checkArgs_cases.
Qed.

Lemma CHECK_ARGS_value info function name types :
  util.removeNamespace function = Returned name ->
  (CHECK_ARGS info function types = Value tt
   <-> (length types <= length info)%nat
       /\ forall j t, types !! j = Some t -> accepts t (info_at info j) = true).
Proof. intros Hname. unfold CHECK_ARGS. rewrite Hname. apply checkArgs_value. Qed.

(** Two callbacks with the same list of types accept the same calls. *)
Lemma CHECK_ARGS_same info f g types :
  (exists name, util.removeNamespace f = Returned name) ->
  (exists name, util.removeNamespace g = Returned name) ->
  CHECK_ARGS info f types = Value tt ->
  CHECK_ARGS info g types = Value tt.
Proof.
  intros [nf Hf] [ng Hg].
  rewrite (CHECK_ARGS_value info f nf types Hf), (CHECK_ARGS_value info g ng types Hg).
  auto.
Qed.

Lemma settles_agree (body : outcome passport.OperationResult) (s : settlement)
    (signals : list settlement) :
  signals = [s] ->
  (forall e, body = Thrown e ->
     (caught_message e <> EmptyString /\ s = Reject (caught_message e))
     \/ (caught_message e = EmptyString /\ s = Resolve status_only)) ->
  (forall res, body = Returned res -> s = Resolve (convertToObject res)) ->
  (forall obj,
     CATCH_EXCEPTIONS (res ← body; mret (convertToObject res)) = Value obj ->
     signals = [Resolve obj])
  /\ (forall msg, msg <> EmptyString ->
        CATCH_EXCEPTIONS (res ← body; mret (convertToObject res))
        = Throws (Napi_Error msg) ->
        signals = [Reject msg]).
Proof.
  intros -> Hthrown Hret. destruct body as [res|e]; cbn.
  - split; [|discriminate]. intros obj [= <-]. now rewrite (Hret res eq_refl).
  - split; [discriminate|]. intros msg Hmsg [= <-].
    destruct (Hthrown e eq_refl) as [[_ ->]|[Hempty _]]; [reflexivity | contradiction].
Qed.

(** X9: the synchronous and the asynchronous form of a request agree.
    When [createPassportKey] or [passportSign] returns an object, the
    promise of the asynchronous form is resolved, once, with that
    object; when it throws an Error with a message that is not empty,
    the promise is rejected, once, with that message. *)
Theorem sync_and_async_agree
    (Utf8Value : list Z -> string)
    (unmanaged_createPassportKey : string -> outcome passport.native_result)
    (unmanaged_passportSign : string -> list Z -> Z -> outcome passport.native_result)
    (info : list js_value) :
  (forall obj,
     js.createPassportKey Utf8Value unmanaged_createPassportKey info = Value obj ->
     js.createPassportKeyAsync Utf8Value unmanaged_createPassportKey info
     = Value [Resolve obj])
  /\ (forall msg, msg <> EmptyString ->
        js.createPassportKey Utf8Value unmanaged_createPassportKey info
        = Throws (Napi_Error msg) ->
        js.createPassportKeyAsync Utf8Value unmanaged_createPassportKey info
        = Value [Reject msg])
  /\ (forall obj,
        js.passportSign Utf8Value unmanaged_passportSign info = Value obj ->
        js.passportSignAsync Utf8Value unmanaged_passportSign info
        = Value [Resolve obj])
  /\ (forall msg, msg <> EmptyString ->
        js.passportSign Utf8Value unmanaged_passportSign info
        = Throws (Napi_Error msg) ->
        js.passportSignAsync Utf8Value unmanaged_passportSign info
        = Value [Reject msg]).
Proof.
  assert (Hkey :
    (forall obj,
       js.createPassportKey Utf8Value unmanaged_createPassportKey info = Value obj ->
       js.createPassportKeyAsync Utf8Value unmanaged_createPassportKey info
       = Value [Resolve obj])
    /\ (forall msg, msg <> EmptyString ->
          js.createPassportKey Utf8Value unmanaged_createPassportKey info
          = Throws (Napi_Error msg) ->
          js.createPassportKeyAsync Utf8Value unmanaged_createPassportKey info
          = Value [Reject msg])).
  { unfold js.createPassportKey, js.createPassportKeyAsync.
    destruct (CHECK_ARGS_cases info "createPassportKey" [STRING]) as [Hs|[m Hs]];
      [eexists; reflexivity | | rewrite Hs; split; [discriminate | intros ? ? [=]]].
    rewrite Hs.
    rewrite (CHECK_ARGS_same info "createPassportKey" "createPassportKeyAsync" [STRING])
      by (try exact Hs; eexists; reflexivity).
    cbn [mbind napi_result_bind mret napi_result_ret].
    destruct (createPassportKeyAsync_settles unmanaged_createPassportKey
                (Utf8Value (As_String (info_at info 0)))) as (s & Hs1 & Hthrown & Hret).
    destruct (settles_agree _ s _ Hs1 Hthrown Hret) as [H1 H2].
    split; [intros obj Hobj; f_equal; now apply H1
           | intros msg Hmsg Hthrows; f_equal; now apply H2]. }
  assert (Hsign :
    (forall obj,
       js.passportSign Utf8Value unmanaged_passportSign info = Value obj ->
       js.passportSignAsync Utf8Value unmanaged_passportSign info
       = Value [Resolve obj])
    /\ (forall msg, msg <> EmptyString ->
          js.passportSign Utf8Value unmanaged_passportSign info
          = Throws (Napi_Error msg) ->
          js.passportSignAsync Utf8Value unmanaged_passportSign info
          = Value [Reject msg])).
  { unfold js.passportSign, js.passportSignAsync.
    destruct (CHECK_ARGS_cases info "passportSign" [STRING; STRING]) as [Hs|[m Hs]];
      [eexists; reflexivity | | rewrite Hs; split; [discriminate | intros ? ? [=]]].
    rewrite Hs.
    rewrite (CHECK_ARGS_same info "passportSign" "passportSignAsync" [STRING; STRING])
      by (try exact Hs; eexists; reflexivity).
    cbn [mbind napi_result_bind mret napi_result_ret].
    destruct (passportSignAsync_settles unmanaged_passportSign
                (Utf8Value (As_String (info_at info 0)))
                (Utf8Value (As_String (info_at info 1)))) as (s & Hs1 & Hthrown & Hret).
    destruct (settles_agree _ s _ Hs1 Hthrown Hret) as [H1 H2].
    assert (Hbody :
      (challenge ← string_to_binary (Utf8Value (As_String (info_at info 1)));
       res ← passport.passportSign unmanaged_passportSign
               (Utf8Value (As_String (info_at info 0))) challenge;
       mret (convertToObject res))
      = (res ← workers.passportSignWorker.sign unmanaged_passportSign
                 (Utf8Value (As_String (info_at info 0)))
                 (Utf8Value (As_String (info_at info 1)));
         mret (convertToObject res))).
    { unfold workers.passportSignWorker.sign.
      now destruct (string_to_binary (Utf8Value (As_String (info_at info 1)))). }
    rewrite Hbody.
    split; [intros obj Hobj; f_equal; now apply H1
           | intros msg Hmsg Hthrows; f_equal; now apply H2]. }
  destruct Hkey as [K1 K2], Hsign as [S1 S2]. auto.
Qed.

Lemma sync_and_async_agree_witness :
  js.createPassportKeyAsync ascii_utf8 new_key [JsString [97]]
  = Value [Resolve {| obj_status := 0; obj_ok := true; obj_data := Some "01FF"%string |}]
  /\ js.passportSignAsync ascii_utf8 signed [JsString [97]; JsString [71]]
     = Value [Reject "Invalid character: 'G' is not a valid hex digit"].
Proof.
  destruct (sync_and_async_agree ascii_utf8 new_key signed [JsString [97]])
    as (Hkey & _).
  destruct (sync_and_async_agree ascii_utf8 new_key signed [JsString [97]; JsString [71]])
    as (_ & _ & _ & Hsign).
  split.
  - exact (Hkey {| obj_status := 0; obj_ok := true; obj_data := Some "01FF"%string |}
             eq_refl).
  - exact (Hsign "Invalid character: 'G' is not a valid hex digit"%string
             ltac:(discriminate) eq_refl).
Defined.

Lemma info_at_0 v rest : info_at (v :: rest) 0 = v.
Proof. reflexivity. Qed.

Lemma info_at_1 v w rest : info_at (v :: w :: rest) 1 = w.
Proof. reflexivity. Qed.

(** X10: a challenge whose first character that is not a hexadecimal
    digit stands at an even index never reaches the unmanaged layer:
    whatever that layer would answer, [passportSign] throws an Error
    with the decoder's message and the promise of [passportSignAsync] is
    rejected with it.  The message is the decoder's text up to its first
    NUL: the whole text unless the offending character is NUL itself. *)
Theorem malformed_challenge_is_reported
    (Utf8Value : list Z -> string)
    (unmanaged_passportSign : string -> list Z -> Z -> outcome passport.native_result)
    (account challenge : list Z) (rest : list js_value)
    (pre post : string) (c : ascii)
    (Htext : Utf8Value challenge = pre +:+ String c post)
    (Heven : Nat.even (String.length pre) = true)
    (Hpre : all_xdigit pre = true)
    (Hc : crt.isxdigit (char_to_int c) = false) :
  js.passportSign Utf8Value unmanaged_passportSign
    (JsString account :: JsString challenge :: rest)
  = Throws (Napi_Error
              (c_str ("Invalid character: '" +:+ String c
                                                "' is not a valid hex digit")))
  /\ js.passportSignAsync Utf8Value unmanaged_passportSign
       (JsString account :: JsString challenge :: rest)
     = Value [Reject
                (c_str ("Invalid character: '" +:+ String c
                                                  "' is not a valid hex digit"))].
Proof.
  fold (invalid_character c).
  assert (Hdec : string_to_binary (Utf8Value challenge)
                 = Thrown (std_exception (invalid_character c))).
  { rewrite Htext. unfold string_to_binary.
    rewrite string_to_binary_loop_even_prefix by assumption.
    now rewrite string_to_binary_loop_invalid. }
  assert (Hsync : js.passportSign Utf8Value unmanaged_passportSign
                    (JsString account :: JsString challenge :: rest)
                  = Throws (Napi_Error (invalid_character c))).
  { unfold js.passportSign.
    change (CHECK_ARGS (JsString account :: JsString challenge :: rest)
              "passportSign" [STRING; STRING]) with (Value tt : napi_result unit).
    rewrite info_at_0, info_at_1. cbn [mbind napi_result_bind As_String].
    rewrite Hdec. cbn [mbind outcome_bind CATCH_EXCEPTIONS].
    now rewrite caught_invalid_character. }
  split; [exact Hsync|].
  unfold js.passportSignAsync.
  change (CHECK_ARGS (JsString account :: JsString challenge :: rest)
            "passportSignAsync" [STRING; STRING]) with (Value tt : napi_result unit).
  rewrite info_at_0, info_at_1.
  cbn [mbind napi_result_bind mret napi_result_ret As_String]. f_equal.
  destruct (passportSignAsync_settles unmanaged_passportSign
              (Utf8Value account) (Utf8Value challenge)) as (s & Hs & Hthrown & _).
  rewrite Hs. f_equal.
  assert (Hbody : workers.passportSignWorker.sign unmanaged_passportSign
                    (Utf8Value account) (Utf8Value challenge)
                  = Thrown (std_exception (invalid_character c))).
  { unfold workers.passportSignWorker.sign. now rewrite Hdec. }
  specialize (Hthrown _ Hbody). rewrite caught_invalid_character in Hthrown.
  destruct Hthrown as [[_ ->]|[Hempty _]]; [reflexivity|].
  rewrite invalid_character_text in Hempty.
  destruct (Ascii.eqb c "000"); discriminate.
Qed.

Lemma malformed_challenge_is_reported_witness :
  ascii_utf8 [48; 48; 71; 49] = "00" +:+ String "G" "1"
  /\ js.passportSign ascii_utf8 signed [JsString [97]; JsString [48; 48; 71; 49]]
     = Throws (Napi_Error "Invalid character: 'G' is not a valid hex digit")
  /\ js.passportSignAsync ascii_utf8 signed [JsString [97]; JsString [48; 48; 71; 49]]
     = Value [Reject "Invalid character: 'G' is not a valid hex digit"].
Proof.
  split; [reflexivity|].
  exact (malformed_challenge_is_reported ascii_utf8 signed [97] [48; 48; 71; 49] []
           "00" "1" "G" eq_refl eq_refl eq_refl eq_refl).
Defined.

(** The same with NUL as the offending character: the message ends at
    the opening quote. *)
Example malformed_challenge_nul :
  js.passportSign ascii_utf8 signed [JsString [97]; JsString [0]]
  = Throws (Napi_Error "Invalid character: '")
  /\ js.passportSignAsync ascii_utf8 signed [JsString [97]; JsString [0]]
     = Value [Reject "Invalid character: '"].
Proof. split; reflexivity. Qed.

(** X11: what [encryptPassword] returns, [decryptPassword] takes back.
    If the protector turns the secret into a protected string and that
    string back into the secret, then [encryptPassword] returns the hex
    text of the protected string's bytes, and [decryptPassword], given a
    string that reads as this text, returns the secret. *)
Theorem password_round_trip
    (Utf8Value : list Z -> string)
    (util_encrypt util_decrypt : list Z -> bool * option (list Z))
    (secret protected text : list Z) (rest rest' : list js_value)
    (Henc : util_encrypt secret = (true, Some protected))
    (Hdec : util_decrypt protected = (true, Some secret))
    (Hchars : Forall is_wchar protected)
    (Hsize : Z.of_nat (length protected) * sizeof_wchar_t <= PTRDIFF_MAX)
    (Htext : Utf8Value text = binary_to_string (wstring_bytes protected)) :
  js.encryptPassword util_encrypt (JsString secret :: rest)
  = Some (Value (binary_to_string (wstring_bytes protected)))
  /\ js.decryptPassword Utf8Value util_decrypt (JsString text :: rest')
     = Some (Value secret).
Proof.
  split.
  - unfold js.encryptPassword.
    change (CHECK_ARGS (JsString secret :: rest) "encryptPassword" [STRING])
      with (Value tt : napi_result unit).
    rewrite info_at_0. cbn [As_String]. unfold passwords.encrypt. rewrite Henc.
    cbn [negb]. rewrite getBytes_spec by exact Hsize. reflexivity.
  - unfold js.decryptPassword.
    change (CHECK_ARGS (JsString text :: rest') "decryptPassword" [STRING])
      with (Value tt : napi_result unit).
    rewrite info_at_0. cbn [As_String]. rewrite Htext.
    unfold string_to_binary.
    rewrite string_to_binary_loop_encoded by apply wstring_bytes_is_byte.
    cbn [app]. rewrite of_secure_vector_spec, even_length_wstring_bytes.
    cbn [fst]. rewrite bytes_wstring_wstring_bytes by exact Hchars.
    unfold passwords.decrypt. rewrite Hdec. reflexivity.
Qed.

Lemma password_round_trip_witness :
  js.encryptPassword reversing [JsString [104; 105]] = Some (Value "69006800"%string)
  /\ js.decryptPassword ascii_utf8 reversing
       [JsString [54; 57; 48; 48; 54; 56; 48; 48]]
     = Some (Value [104; 105]).
Proof.
  apply (password_round_trip ascii_utf8 reversing reversing
           [104; 105] [105; 104] [54; 57; 48; 48; 54; 56; 48; 48] [] []);
    try reflexivity.
  - repeat constructor; unfold is_wchar; lia.
  - unfold PTRDIFF_MAX, sizeof_wchar_t. cbn. lia.
Defined.

(** X12: [passwordEncrypted] asks the protector about the wide string
    built from the decoded bytes, which is the empty string when their
    number is odd; it returns the protector's answer, and throws an
    Error when the protector cannot tell. *)
Theorem passwordEncrypted_query
    (Utf8Value : list Z -> string)
    (util_isEncrypted : list Z -> bool * bool)
    (password : list Z) (rest : list js_value) (bytes : list Z)
    (Hhex : string_to_binary (Utf8Value password) = Returned bytes) :
  let data := if Nat.even (length bytes) then bytes_wstring bytes else [] in
  js.passwordEncrypted Utf8Value util_isEncrypted (JsString password :: rest)
  = if snd (util_isEncrypted data)
    then Value (fst (util_isEncrypted data))
    else Throws (Napi_Error "Could not check if data is encrypted").
Proof.
  cbv zeta. unfold js.passwordEncrypted.
  change (CHECK_ARGS (JsString password :: rest) "passwordEncrypted" [STRING])
    with (Value tt : napi_result unit).
  rewrite info_at_0. cbn [mbind napi_result_bind As_String]. rewrite Hhex.
  cbn [mbind outcome_bind]. rewrite of_secure_vector_spec. cbn [fst].
  unfold passwords.isEncrypted.
  destruct (util_isEncrypted _) as [res []]; reflexivity.
Qed.

Lemma passwordEncrypted_query_witness :
  string_to_binary (ascii_utf8 [52; 49; 48; 48; 52; 50]) = Returned [65; 0; 66]
  /\ js.passwordEncrypted ascii_utf8 (fun data => (true, bool_decide (data = [])))
       [JsString [52; 49; 48; 48; 52; 50]]
     = Value true.
Proof.
  split; [reflexivity|].
  exact (passwordEncrypted_query ascii_utf8 (fun data => (true, bool_decide (data = [])))
           [52; 49; 48; 48; 52; 50] [] [65; 0; 66] eq_refl).
Defined.

Lemma sym_xdigit j : 0 <= j < 16 -> crt.isxdigit (char_to_int (sym j)) = true.
Proof.
  intros Hj.
  assert (H : sym_is_xdigit j = true).
  { apply byte_cases; [vm_compute; reflexivity | unfold is_byte; lia]. }
  unfold sym_is_xdigit in H. now destruct (Z.ltb_spec j 16); [|lia].
Qed.

Lemma all_xdigit_binary_to_string bs : all_xdigit (binary_to_string bs) = true.
Proof.
  induction bs as [|b bs IH]; [reflexivity|].
  cbn [binary_to_string all_xdigit].
  rewrite !sym_xdigit by apply land_15_range. exact IH.
Qed.

Lemma generateRandom_loop_spec dist n : forall i buffer,
  js.generateRandom_loop dist n i buffer
  = buffer ++ ((fun k => to_uchar (dist k)) <$> seq i n).
Proof.
  induction n as [|n IH]; intros i buffer; cbn [js.generateRandom_loop seq fmap list_fmap].
  - now rewrite app_nil_r.
  - rewrite IH, <- app_assoc. reflexivity.
Qed.

(** X13: [generateRandom] with a negative count throws the Error of
    [reserve] ("vector too long"); with a count [n >= 0] it returns a text
    of [2 * n] hexadecimal digits that decodes to the [n] bytes drawn
    from the generator.  (Memory is taken not to run out.) *)
Theorem generateRandom_text (dist : nat -> Z) (numChars : Z) (rest : list js_value)
    (Hint : - 2 ^ 31 <= numChars < 2 ^ 31) :
  if numChars <? 0
  then js.generateRandom dist (JsNumber numChars :: rest)
       = Throws (Napi_Error "vector too long")
  else exists text : string,
         js.generateRandom dist (JsNumber numChars :: rest) = Value text
         /\ Z.of_nat (String.length text) = 2 * numChars
         /\ all_xdigit text = true
         /\ string_to_binary text
            = Returned ((fun k => to_uchar (dist k)) <$> seq 0 (Z.to_nat numChars)).
Proof.
  unfold js.generateRandom.
  change (CHECK_ARGS (JsNumber numChars :: rest) "generateRandom" [NUMBER])
    with (Value tt : napi_result unit).
  rewrite info_at_0. cbn [mbind napi_result_bind As_Number].
  unfold vector_reserve, to_size_t, PTRDIFF_MAX.
  destruct (Z.ltb_spec numChars 0) as [Hneg|Hpos].
  - replace (numChars mod 2 ^ 64) with (numChars + 2 ^ 64)
      by (apply Z.mod_unique with (q := -1); lia).
    destruct (Z.gtb_spec (numChars + 2 ^ 64) (2 ^ 63 - 1)); [reflexivity | lia].
  - rewrite Z.mod_small by lia.
    destruct (Z.gtb_spec numChars (2 ^ 63 - 1)); [lia|].
    cbn [mbind outcome_bind mret outcome_ret CATCH_EXCEPTIONS].
    rewrite generateRandom_loop_spec. cbn [app].
    eexists. split; [reflexivity|]. split; [|split].
    + rewrite length_binary_to_string, length_fmap, length_seq. lia.
    + apply all_xdigit_binary_to_string.
    + unfold string_to_binary. rewrite string_to_binary_loop_encoded; [reflexivity|].
      apply Forall_fmap, Forall_forall. intros k _. apply to_uchar_is_byte.
Qed.

Lemma generateRandom_text_witness :
  - 2 ^ 31 <= -1 < 2 ^ 31
  /\ js.generateRandom counting [JsNumber (-1)] = Throws (Napi_Error "vector too long")
  /\ exists text : string,
       js.generateRandom counting [JsNumber 3] = Value text
       /\ Z.of_nat (String.length text) = 2 * 3
       /\ all_xdigit text = true
       /\ string_to_binary text
          = Returned ((fun k => to_uchar (counting k)) <$> seq 0 (Z.to_nat 3)).
Proof.
  assert (H : - 2 ^ 31 <= -1 < 2 ^ 31) by lia.
  split; [exact H|]. split.
  - exact (generateRandom_text counting (-1) [] H).
  - exact (generateRandom_text counting 3 [] ltac:(lia)).
Defined.

(** ** secure_wstring::to_string *)

Lemma length_string_take n s : String.length (string_take n s) = Nat.min n (String.length s).
Proof.
  revert s. induction n as [|n IH]; intros [|c s]; cbn [string_take String.length];
    try reflexivity.
  now rewrite IH.
Qed.

Lemma string_take_app s t : string_take (String.length s) (s +:+ t) = s.
Proof.
  induction s as [|c s IH]; [now destruct t|].
  change (String c s +:+ t) with (String c (s +:+ t)).
  cbn [String.length string_take]. now rewrite IH.
Qed.

Lemma string_take_snoc s c t :
  string_take (String.length s + 1) (s +:+ String c t) = s +:+ String c EmptyString.
Proof.
  induction s as [|d s IH]; [reflexivity|].
  change (String d s +:+ String c t) with (String d (s +:+ String c t)).
  change (String d s +:+ String c EmptyString)
    with (String d (s +:+ String c EmptyString)).
  cbn [String.length string_take Nat.add]. now rewrite IH.
Qed.

Lemma length_string_of_replicate n (c : ascii) :
  String.length (string_of_list_ascii (replicate n c)) = n.
Proof. induction n as [|n IH]; cbn; [reflexivity | now rewrite IH]. Qed.

Lemma wcs_c_str_terminated ws tl :
  Forall (fun c => c <> 0) ws -> wcs_c_str (ws ++ 0 :: tl) = ws.
Proof.
  induction 1 as [|c ws Hc _ IH]; [reflexivity|].
  cbn [app wcs_c_str]. destruct (Z.eqb_spec c 0); [contradiction|]. now rewrite IH.
Qed.

Lemma string_resize_snoc s c t :
  string_resize (s +:+ String c t) (Z.of_nat (String.length s) + 1)
  = s +:+ String c EmptyString.
Proof.
  unfold string_resize.
  replace (Z.to_nat (Z.of_nat (String.length s) + 1)) with (String.length s + 1)%nat by lia.
  rewrite string_take_snoc, string_length_app. cbn [String.length].
  replace (String.length s + 1 - (String.length s + S (String.length t)))%nat
    with 0%nat by lia.
  cbn [replicate string_of_list_ascii].
  clear. induction s as [|d s IH]; [reflexivity|].
  change ((String d s +:+ String c EmptyString) +:+ EmptyString)
    with (String d ((s +:+ String c EmptyString) +:+ EmptyString)).
  now rewrite IH.
Qed.

(** X14: from narrow text to a wide string and back.  When the
    locale decodes the text to [ws] (no more characters than bytes, none
    of them NUL), the wide string is [ws] followed by a NUL, and
    [to_string] of it is the locale's encoding of [ws], cut to
    [size()] = [length ws + 1] bytes, followed by a NUL: a text of
    one-byte characters comes back one character longer. *)
Theorem narrow_round_trip_appends_nul
    (mbstowcs : string -> Z -> option (list Z))
    (wcstombs : list Z -> Z -> option string)
    (str : string) (stderr : list string) (ws : list Z) (bs : string)
    (Hdec : mbstowcs (c_str str) (Z.of_nat (String.length str)) = Some ws)
    (Hlen : (length ws <= String.length str)%nat)
    (Hnz : Forall (fun c => c <> 0) ws)
    (Henc : wcstombs ws (Z.of_nat (length ws + 1)) = Some bs) :
  secure_wstring.of_string mbstowcs str stderr = (ws ++ [0], stderr)
  /\ wstring_to_string wcstombs (ws ++ [0]) stderr
     = (string_take (length ws + 1) bs +:+ String "000" EmptyString, stderr).
Proof.
  split; [now rewrite of_string_spec, Hdec, take_ge by exact Hlen|].
  unfold wstring_to_string, wcstombs_s.
  rewrite wcs_c_str_terminated by exact Hnz.
  rewrite length_app. cbn [length]. rewrite Henc, Nat2Z.id.
  rewrite length_string_of_replicate.
  set (out := string_of_list_ascii (replicate (length ws + 1 + 1) " "%char)).
  set (bs' := string_take (length ws + 1) bs).
  assert (Hbs : (String.length bs' <= length ws + 1)%nat)
    by (subst bs'; rewrite length_string_take; lia).
  destruct (Z.leb_spec (Z.of_nat (length ws + 1 + 1)) (Z.of_nat (String.length bs')));
    [lia|].
  cbn [Z.eqb]. now rewrite string_resize_snoc.
Qed.

Lemma narrow_round_trip_appends_nul_witness :
  ascii_decoder "abc" 3 = Some [97; 98; 99]
  /\ ascii_encoder [97; 98; 99] 4 = Some "abc"%string
  /\ wstring_to_string ascii_encoder [97; 98; 99; 0] []
     = (String "a" (String "b" (String "c" (String "000" EmptyString))), []).
Proof.
  split; [reflexivity|]. split; [reflexivity|].
  assert (Hnz : Forall (fun c => c <> 0) [97; 98; 99])
    by (repeat constructor; lia).
  exact (proj2 (narrow_round_trip_appends_nul ascii_decoder ascii_encoder "abc" []
                  [97; 98; 99] "abc" eq_refl ltac:(cbn; lia) Hnz eq_refl)).
Defined.
